(** * The todo application: state reconciliation with a remote store

    A shallow embedding of [src/App.tsx] (the [App] component and the
    [TodoItem] component that follows it in the same file).

    - JavaScript strings are sequences of UTF-16 code units.
    - React state cells are the fields of a record; a setter is a record
      update.
    - An [async] function is a task: it runs up to its first [await],
      where it hands out the request it issued together with the code
      that runs once the request has settled.
    - [Promise.allSettled] over [list.map(async ...)] is a pool of such
      tasks driven by a schedule, the order in which the remote calls
      settle and with which result. *)

From Stdlib Require Import ZArith NArith Bool String Ascii.
From stdpp Require Import base tactics option list.

Local Open Scope Z_scope.

(** ** JavaScript strings *)

Module Js.

(** A string is its sequence of UTF-16 code units. *)
Definition str : Type := list N.

(** An ASCII literal of the source. *)
Definition lit (s : string) : str :=
  List.map N_of_ascii (list_ascii_of_string s).
Arguments lit s%_string.

(** WhiteSpace and LineTerminator of ECMAScript, which is what
    [String.prototype.trim] strips: TAB, LF, VT, FF, CR, SP, NBSP, the
    other code points of category Zs, LS, PS and the BOM. All of them
    are single code units. *)
Definition isWhiteSpace (c : N) : bool :=
  ((9 <=? c) && (c <=? 13) || (c =? 32) || (c =? 160) || (c =? 5760)
   || (8192 <=? c) && (c <=? 8202) || (c =? 8232) || (c =? 8233)
   || (c =? 8239) || (c =? 8287) || (c =? 12288) || (c =? 65279))%N.

Fixpoint trimStart (s : str) : str :=
  match s with
  | c :: s' => if isWhiteSpace c then trimStart s' else s
  | [] => []
  end.

Definition trimEnd (s : str) : str := rev (trimStart (rev s)).

Definition trim (s : str) : str := trimEnd (trimStart s).

(** [!s.length], and also [!s] for a string. *)
Definition isEmpty (s : str) : bool :=
  match s with [] => true | _ => false end.

(** [s === t] on strings. *)
Fixpoint eqb (s t : str) : bool :=
  match s, t with
  | [], [] => true
  | c :: s', d :: t' => (c =? d)%N && eqb s' t'
  | _, _ => false
  end.

End Js.

(** ** Data model *)

(** [types/Todo]: the record of the remote store. [userId] is the owner
    association, which the application never inspects. *)
Record Todo : Type := mkTodo {
  id : Z;
  userId : Z;
  title : Js.str;
  completed : bool
}.

(** [types/Filter]. *)
Module Filter.
Inductive t : Type := All | Active | Completed.
End Filter.

(** [types/ToggleStatus]: which subset of the items shows a loader while
    a toggle-all is in flight. *)
Module ToggleStatus.
Inductive t : Type := completed | active.
End ToggleStatus.

(** [Partial<Todo>] as the handlers build it: only [completed] and
    [title] are ever provided. *)
Record PartialTodo : Type := mkPartial {
  completed_opt : option bool;
  title_opt : option Js.str
}.

(** [{ ...todo, ...updateData }] *)
Definition spread (todo : Todo) (updateData : PartialTodo) : Todo :=
  mkTodo (id todo) (userId todo)
         (default (title todo) (title_opt updateData))
         (default (completed todo) (completed_opt updateData)).

(** [{ ...todo, completed: b }] *)
Definition withCompleted (b : bool) (todo : Todo) : Todo :=
  mkTodo (id todo) (userId todo) (title todo) b.

(** ** The remote store client ([api/todos]), by interface

    The four calls, and how a call settles. What a remove or an update
    call resolves with is never read by the handlers; it is [unit]
    here. *)

Inductive Request : Type :=
| GetTodos
| PostTodo (newTitle : Js.str)
| DeleteTodo (todoId : Z)
| PatchTodo (todoId : Z) (data : PartialTodo).

(** What a rejected promise carries: any JavaScript value. The handlers
    only ever ask whether it is an instance of [Error]. *)
Inductive Thrown : Type :=
| ErrorObject (message : Js.str)
| OtherValue (description : Js.str).

Definition instanceofError (e : Thrown) : bool :=
  match e with ErrorObject _ => true | OtherValue _ => false end.

(** The settlement of a remote call that resolves with an [A]. *)
Inductive Settled (A : Type) : Type :=
| Fulfilled (value : A)
| Rejected (reason : Thrown).
Arguments Fulfilled {A} value.
Arguments Rejected {A} reason.

Definition isFulfilled {A} (r : Settled A) : bool :=
  match r with Fulfilled _ => true | Rejected _ => false end.

Definition isRejected {A} (r : Settled A) : bool := negb (isFulfilled r).

(** ** Asynchronous functions *)

(** How an [async] function ends: its promise resolves, or rejects with
    what the body threw. *)
Inductive Completion : Type :=
| Normal
| Throw (e : Thrown).

(** An [async] function over a state [S] whose remote calls resolve with
    an [R]. [Awaiting req resume]: the body has issued [req] and is
    suspended at [await]; [resume] is the rest of the body, run on the
    state at the time the call settles. *)
#[local] Unset Elimination Schemes.
Inductive Task (S R : Type) : Type :=
| Finished (c : Completion)
| Awaiting (req : Request) (resume : Settled R → S → S * Task S R).
#[local] Set Elimination Schemes.
Arguments Finished {S R} c.
Arguments Awaiting {S R} req resume.

(** The remote call a suspended task waits for. *)
Definition pending {S R} (k : Task S R) : option Request :=
  match k with Awaiting req _ => Some req | Finished _ => None end.

Definition isFinished {S R} (k : Task S R) : bool :=
  match k with Finished _ => true | Awaiting _ _ => false end.

(** The call of a suspended task settles with [r]. A finished task has
    nothing to settle. *)
Definition settle {S R} (r : Settled R) (p : S * Task S R) : S * Task S R :=
  match p.2 with
  | Awaiting _ resume => resume r p.1
  | Finished _ => p
  end.

(** [try { await sub; after } finally { cleanup }] around a task [sub]
    (anything thrown propagates once [cleanup] has run), and the plain
    [await sub; after]. *)
Fixpoint andThen {S R} (k : Task S R)
    (after : Completion → S → S * Task S R) (s : S) : S * Task S R :=
  match k with
  | Finished c => after c s
  | Awaiting req resume =>
      (s, Awaiting req (λ r s',
             let '(s'', k') := resume r s' in andThen k' after s''))
  end.

(** ** [Promise.allSettled(list.map(async ...))] *)

(** [list.map(cb)] with an [async] callback: every callback runs, in list
    order, up to its first [await]. *)
Fixpoint spawn {A S R} (cb : A → S → S * Task S R) (l : list A) (s : S)
    : S * list (Task S R) :=
  match l with
  | [] => (s, [])
  | a :: l' =>
      let '(s1, k) := cb a s in
      let '(s2, ks) := spawn cb l' s1 in
      (s2, k :: ks)
  end.

(** The tasks in flight, the state they share, and the remote calls
    issued so far, oldest first. *)
Record Pool (S R : Type) : Type := mkPool {
  frame : S;
  tasks : list (Task S R);
  trace : list Request
}.
Arguments mkPool {S R} frame tasks trace.
Arguments frame {S R} p.
Arguments tasks {S R} p.
Arguments trace {S R} p.

Definition startAll {A S R} (cb : A → S → S * Task S R) (l : list A) (s : S)
    : Pool S R :=
  let '(s', ks) := spawn cb l s in
  mkPool s' ks (omap pending ks).

(** One settlement: the call of task number [ev.1] settles with [ev.2]
    and the task runs on to its next [await] or to its end. There is no
    such settlement for a task that is not waiting. *)
Definition settleAt {S R} (ev : nat * Settled R) (p : Pool S R)
    : option (Pool S R) :=
  match tasks p !! ev.1 with
  | Some (Awaiting _ resume) =>
      let '(s', k') := resume ev.2 (frame p) in
      Some (mkPool s' (<[ev.1 := k']> (tasks p))
                   (trace p ++ option_list (pending k')))
  | _ => None
  end.

(** A schedule: which call settles when, and how. *)
Fixpoint run {S R} (sched : list (nat * Settled R)) (p : Pool S R)
    : option (Pool S R) :=
  match sched with
  | [] => Some p
  | ev :: sched' =>
      match settleAt ev p with
      | Some p' => run sched' p'
      | None => None
      end
  end.

(** [Promise.allSettled] resolves once every task has finished. *)
Definition allSettled {S R} (p : Pool S R) : bool :=
  forallb isFinished (tasks p).

(** ** The [App] component *)

Record AppState : Type := mkApp {
  todosFromServer : list Todo;
  filterStatus : Filter.t;
  inputValue : Js.str;
  tempTodo : option Js.str;
  lockInput : bool;
  deleteAll : bool;
  changeAll : option ToggleStatus.t;
  errorMessage : option Js.str
}.

(** The [useState] defaults. *)
Definition initialState : AppState :=
  mkApp [] Filter.All [] None false false None None.

Definition setTodosFromServer (v : list Todo) (st : AppState) : AppState :=
  mkApp v (filterStatus st) (inputValue st) (tempTodo st) (lockInput st)
        (deleteAll st) (changeAll st) (errorMessage st).

(** [setTodosFromServer(currentTodos => f(currentTodos))] *)
Definition updateTodosFromServer (f : list Todo → list Todo) (st : AppState)
    : AppState :=
  setTodosFromServer (f (todosFromServer st)) st.

Definition setInputValue (v : Js.str) (st : AppState) : AppState :=
  mkApp (todosFromServer st) (filterStatus st) v (tempTodo st) (lockInput st)
        (deleteAll st) (changeAll st) (errorMessage st).

Definition setTempTodo (v : option Js.str) (st : AppState) : AppState :=
  mkApp (todosFromServer st) (filterStatus st) (inputValue st) v (lockInput st)
        (deleteAll st) (changeAll st) (errorMessage st).

Definition setLockInput (v : bool) (st : AppState) : AppState :=
  mkApp (todosFromServer st) (filterStatus st) (inputValue st) (tempTodo st) v
        (deleteAll st) (changeAll st) (errorMessage st).

Definition setDeleteAll (v : bool) (st : AppState) : AppState :=
  mkApp (todosFromServer st) (filterStatus st) (inputValue st) (tempTodo st)
        (lockInput st) v (changeAll st) (errorMessage st).

Definition setChangeAll (v : option ToggleStatus.t) (st : AppState)
    : AppState :=
  mkApp (todosFromServer st) (filterStatus st) (inputValue st) (tempTodo st)
        (lockInput st) (deleteAll st) v (errorMessage st).

Definition setErrorMessage (v : option Js.str) (st : AppState) : AppState :=
  mkApp (todosFromServer st) (filterStatus st) (inputValue st) (tempTodo st)
        (lockInput st) (deleteAll st) (changeAll st) v.

(** *** Derived views *)

Definition completedTodos (st : AppState) : list Todo :=
  List.filter (λ todo, completed todo) (todosFromServer st).

Definition allCompleted (st : AppState) : bool :=
  Nat.eqb (length (completedTodos st)) (length (todosFromServer st)).

Definition activeTodos (st : AppState) : list Todo :=
  List.filter (λ todo, negb (completed todo)) (todosFromServer st).

Definition preparedTodos (st : AppState) : list Todo :=
  List.filter (λ todo,
      match filterStatus st with
      | Filter.Active => negb (completed todo)
      | Filter.Completed => completed todo
      | Filter.All => true
      end)
    (todosFromServer st).

(** *** Handlers

    A handler is invoked on the state [st] of the render it closes over.
    What it reads from its closure ([todosFromServer], [allCompleted],
    [inputValue]) is read from [st]; what runs after an [await] runs on
    the state of that later moment. *)

(** [loadTodos] *)
Definition loadTodos (st : AppState) : AppState * Task AppState (list Todo) :=
  (st, Awaiting GetTodos (λ r s,
    match r with
    | Fulfilled todos => (setTodosFromServer todos s, Finished Normal)
    | Rejected _ =>
        (setErrorMessage (Some (Js.lit "Unable to load todos")) s,
         Finished Normal)
    end)).

(** [handleInputChange] *)
Definition handleInputChange (value : Js.str) (st : AppState) : AppState :=
  setInputValue value st.

(** [handleDeleteTodo] *)
Definition handleDeleteTodo (tid : Z) (st : AppState)
    : AppState * Task AppState unit :=
  let todosFromServer_ := todosFromServer st in
  let st := setErrorMessage None st in
  let st := setLockInput true st in
  (st, Awaiting (DeleteTodo tid) (λ r s,
    let s :=
      match r with
      | Fulfilled _ =>
          setTodosFromServer
            (List.filter (λ todoItem, negb (id todoItem =? tid))
                         todosFromServer_) s
      | Rejected _ =>
          setErrorMessage (Some (Js.lit "Unable to delete a todo")) s
      end in
    (setLockInput false s, Finished Normal))).

(** [handlePostTodo] *)
Definition handlePostTodo (st : AppState) : AppState * Task AppState Todo :=
  let preparedInputValue := Js.trim (inputValue st) in
  let st := setErrorMessage None st in
  if Js.isEmpty preparedInputValue then
    (setErrorMessage (Some (Js.lit "Title should not be empty")) st,
     Finished Normal)
  else
    let st := setLockInput true st in
    let st := setTempTodo (Some preparedInputValue) st in
    (st, Awaiting (PostTodo preparedInputValue) (λ r s,
      let s :=
        match r with
        | Fulfilled newPost =>
            let s := updateTodosFromServer
                       (λ currentTodos, currentTodos ++ [newPost]) s in
            setInputValue [] s
        | Rejected _ =>
            setErrorMessage (Some (Js.lit "Unable to add a todo")) s
        end in
      let s := setLockInput false s in
      (setTempTodo None s, Finished Normal))).

(** The argument [data: boolean | string] of [handleChangeTodo]. *)
Inductive ChangeData : Type :=
| ofBoolean (b : bool)
| ofString (s : Js.str).

(** The [updateData] that [handleChangeTodo] builds from [data]. *)
Definition updateDataOf (data : ChangeData) : PartialTodo :=
  match data with
  | ofBoolean b => mkPartial (Some b) None
  | ofString s => mkPartial None (Some (Js.trim s))
  end.

(** [handleChangeTodo] *)
Definition handleChangeTodo (tid : Z) (data : ChangeData) (st : AppState)
    : AppState * Task AppState unit :=
  let updateData := updateDataOf data in
  (st, Awaiting (PatchTodo tid updateData) (λ r s,
    match r with
    | Fulfilled _ =>
        (updateTodosFromServer
           (λ currentTodos,
              List.map (λ todo,
                  if id todo =? tid then spread todo updateData else todo)
                currentTodos) s,
         Finished Normal)
    | Rejected error =>
        if instanceofError error then
          (setErrorMessage (Some (Js.lit "Unable to update a todo")) s,
           Finished (Throw error))
        else (s, Finished Normal)
    end)).

(** The state the callbacks of a bulk handler share: the React state and
    the handler's local [let updatedTodos]. *)
Record Frame : Type := mkFrame {
  app : AppState;
  updatedTodos : list Todo
}.

Definition onApp (f : AppState → AppState) (fr : Frame) : Frame :=
  mkFrame (f (app fr)) (updatedTodos fr).

Definition setUpdatedTodos (v : list Todo) (fr : Frame) : Frame :=
  mkFrame (app fr) v.

(** The callback that [handleDeleteAll] maps over the list. *)
Definition deleteAllCallback (todo : Todo) (fr : Frame)
    : Frame * Task Frame unit :=
  if completed todo then
    (fr, Awaiting (DeleteTodo (id todo)) (λ r fr',
      match r with
      | Fulfilled _ =>
          (setUpdatedTodos
             (List.filter (λ item, negb (id item =? id todo))
                          (updatedTodos fr')) fr',
           Finished Normal)
      | Rejected _ =>
          (onApp (setErrorMessage (Some (Js.lit "Unable to delete a todo")))
                 fr',
           Finished Normal)
      end))
  else (fr, Finished Normal).

(** [handleDeleteAll] up to [await Promise.allSettled(...)]. *)
Definition handleDeleteAll_begin (st : AppState) : Pool Frame unit :=
  let todosFromServer_ := todosFromServer st in
  let st := setDeleteAll true st in
  let st := setErrorMessage None st in
  startAll deleteAllCallback todosFromServer_ (mkFrame st todosFromServer_).

(** [handleDeleteAll] after it. *)
Definition handleDeleteAll_end (p : Pool Frame unit) : AppState :=
  let fr := frame p in
  setDeleteAll false (setTodosFromServer (updatedTodos fr) (app fr)).

(** [handleDeleteAll] under a schedule of settlements: the state it
    leaves and the remote calls it made. The schedule has to settle every
    call that is issued, and only those. *)
Definition handleDeleteAll (st : AppState) (sched : list (nat * Settled unit))
    : option (AppState * list Request) :=
  match run sched (handleDeleteAll_begin st) with
  | Some p =>
      if allSettled p then Some (handleDeleteAll_end p, trace p) else None
  | None => None
  end.

(** The last statement of the callback of [handleToggleAll]: the
    [updatedTodos.map(...)]. [allCompleted_] and [completed_] are the
    handler's [allCompleted] and the [completed] of the item the callback
    was called on. *)
Definition toggleAllApply (allCompleted_ completed_ : bool) (fr : Frame)
    : Frame * Task Frame unit :=
  (setUpdatedTodos
     (List.map (λ todo,
          if allCompleted_ then withCompleted false todo
          else if negb allCompleted_ && negb completed_
               then withCompleted true todo
               else todo)
        (updatedTodos fr)) fr,
   Finished Normal).

(** Its [catch]. *)
Definition toggleAllCatch (fr : Frame) : Frame * Task Frame unit :=
  (onApp (setErrorMessage (Some (Js.lit "Unable to delete a todo"))) fr,
   Finished Normal).

(** The callback from its second [if] on. *)
Definition toggleAllSecond (allCompleted_ : bool) (todo : Todo) (fr : Frame)
    : Frame * Task Frame unit :=
  if negb (completed todo) then
    (onApp (setChangeAll (Some ToggleStatus.active)) fr,
     Awaiting (PatchTodo (id todo) (mkPartial (Some true) None)) (λ r fr',
       match r with
       | Fulfilled _ => toggleAllApply allCompleted_ (completed todo) fr'
       | Rejected _ => toggleAllCatch fr'
       end))
  else toggleAllApply allCompleted_ (completed todo) fr.

(** The callback that [handleToggleAll] maps over the list. *)
Definition toggleAllCallback (allCompleted_ : bool) (todo : Todo) (fr : Frame)
    : Frame * Task Frame unit :=
  if allCompleted_ then
    (onApp (setChangeAll (Some ToggleStatus.completed)) fr,
     Awaiting (PatchTodo (id todo) (mkPartial (Some false) None)) (λ r fr',
       match r with
       | Fulfilled _ => toggleAllSecond allCompleted_ todo fr'
       | Rejected _ => toggleAllCatch fr'
       end))
  else toggleAllSecond allCompleted_ todo fr.

(** [handleToggleAll] up to [await Promise.allSettled(...)]. *)
Definition handleToggleAll_begin (st : AppState) : Pool Frame unit :=
  let todosFromServer_ := todosFromServer st in
  let allCompleted_ := allCompleted st in
  startAll (toggleAllCallback allCompleted_) todosFromServer_
           (mkFrame st todosFromServer_).

(** [handleToggleAll] after it. *)
Definition handleToggleAll_end (p : Pool Frame unit) : AppState :=
  let fr := frame p in
  setChangeAll None (setTodosFromServer (updatedTodos fr) (app fr)).

(** [handleToggleAll] under a schedule of settlements. *)
Definition handleToggleAll (st : AppState) (sched : list (nat * Settled unit))
    : option (AppState * list Request) :=
  match run sched (handleToggleAll_begin st) with
  | Some p =>
      if allSettled p then Some (handleToggleAll_end p, trace p) else None
  | None => None
  end.

(** ** The [TodoItem] component *)

Module TodoItem.

(** The item's own [useState] cells. *)
Record ItemState : Type := mkItem {
  isLoading : bool;
  isEditing : bool;
  inputValue : Js.str
}.

(** What a handler of the item acts on: the item's cells, and the
    state of [App] behind the [deleteTodo] and [changeTodo] props
    ([handleDeleteTodo] and [handleChangeTodo]). *)
Record View : Type := mkView {
  item : ItemState;
  parent : AppState
}.

Definition setIsLoading (v : bool) (w : View) : View :=
  mkView (mkItem v (isEditing (item w)) (inputValue (item w))) (parent w).

Definition setIsEditing (v : bool) (w : View) : View :=
  mkView (mkItem (isLoading (item w)) v (inputValue (item w))) (parent w).

Definition setInputValue (v : Js.str) (w : View) : View :=
  mkView (mkItem (isLoading (item w)) (isEditing (item w)) v) (parent w).

Definition setParent (st : AppState) (w : View) : View :=
  mkView (item w) st.

(** A handler of [App] called through a prop. *)
Fixpoint viaProp {R} (k : Task AppState R) : Task View R :=
  match k with
  | Finished c => Finished c
  | Awaiting req resume =>
      Awaiting req (λ r w,
        let '(st, k') := resume r (parent w) in
        (setParent st w, viaProp k'))
  end.

Definition callProp {R} (h : AppState → AppState * Task AppState R)
    (w : View) : View * Task View R :=
  let '(st, k) := h (parent w) in (setParent st w, viaProp k).

(** [deleteItem] *)
Definition deleteItem (todo : Todo) (w : View) : View * Task View unit :=
  let w := setIsLoading true w in
  let '(w, k) := callProp (handleDeleteTodo (id todo)) w in
  andThen k (λ c w', (setIsLoading false w', Finished c)) w.

(** [handleCompletedStatus] *)
Definition handleCompletedStatus (todo : Todo) (w : View)
    : View * Task View unit :=
  let w := setIsLoading true w in
  let '(w, k) :=
    callProp (handleChangeTodo (id todo)
                               (ofBoolean (negb (completed todo)))) w in
  andThen k (λ c w', (setIsLoading false w', Finished c)) w.

(** [handleTitleChange]. The [deleteItem()] of its first branch is not
    awaited and nothing follows it, so the task of [deleteItem] is all
    that goes on. *)
Definition handleTitleChange (todo : Todo) (w : View)
    : View * Task View unit :=
  let inputValue_ := inputValue (item w) in
  if Js.isEmpty inputValue_ then deleteItem todo w
  else
    let w :=
      if Js.eqb inputValue_ (title todo) then setIsEditing false w else w in
    if negb (Js.eqb inputValue_ (title todo)) then
      let w := setIsLoading true w in
      let '(w, k) :=
        callProp (handleChangeTodo (id todo) (ofString inputValue_)) w in
      andThen k (λ c w',
          match c with
          | Normal =>
              (setIsLoading false (setIsEditing false w'), Finished Normal)
          | Throw e => (setIsLoading false w', Finished (Throw e))
          end) w
    else (w, Finished Normal).

(** [handleInputChange] *)
Definition handleInputChange (value : Js.str) (w : View) : View :=
  setInputValue value w.

(** [handleKeyDown]; [escape] is [key === 'Escape']. *)
Definition handleKeyDown (escape : bool) (w : View) : View :=
  if escape then setIsEditing false w else w.

End TodoItem.

(** ** What is rendered *)

(** [!!todosFromServer.length]: the toggle-all button and the footer are
    rendered. *)
Definition listShown (st : AppState) : bool :=
  negb (Nat.eqb (length (todosFromServer st)) 0).

(** [disabled={!completedTodos.length}] of the clear-completed button. *)
Definition clearCompletedDisabled (st : AppState) : bool :=
  Nat.eqb (length (completedTodos st)) 0.

(** The number in the counter [`${activeTodos.length} items left`]. *)
Definition itemsLeft (st : AppState) : nat := length (activeTodos st).

(** The [is-active] condition of the loader overlay of an item: its own
    [isLoading], or one of the bulk markers of [App] together with the
    item's flag. *)
Definition loaderActive (todo : Todo) (w : TodoItem.View) : bool :=
  TodoItem.isLoading (TodoItem.item w)
  || (deleteAll (TodoItem.parent w) && completed todo)
  || (match changeAll (TodoItem.parent w) with
      | Some ToggleStatus.completed => true
      | _ => false
      end && completed todo)
  || (match changeAll (TodoItem.parent w) with
      | Some ToggleStatus.active => true
      | _ => false
      end && negb (completed todo)).

(** ** Notions the properties are stated with *)

(** A task that never ends by throwing, however its calls settle. *)
Fixpoint swallows {S R} (k : Task S R) : Prop :=
  match k with
  | Finished c => c = Normal
  | Awaiting _ resume =>
      ∀ r s, let '(_, k') := resume r s in swallows k'
  end.

(** Update-one surfaces the rejection [e] of its remote call: the message
    of the update category is shown, the list is as it was, and [e] is
    thrown on to the caller. *)
Definition updateFailureSurfaces (st : AppState) (tid : Z) (data : ChangeData)
    (e : Thrown) : Prop :=
  let after := settle (Rejected e) (handleChangeTodo tid data st) in
  errorMessage after.1 = Some (Js.lit "Unable to update a todo")
  ∧ todosFromServer after.1 = todosFromServer st
  ∧ after.2 = Finished (Throw e).

(** How the call of task [i] settled under a schedule, if it did. *)
Fixpoint outcome {R} (sched : list (nat * Settled R)) (i : nat)
    : option (Settled R) :=
  match sched with
  | [] => None
  | (j, r) :: sched' => if Nat.eqb j i then Some r else outcome sched' i
  end.

Definition succeeded {R} (sched : list (nat * Settled R)) (i : nat) : bool :=
  match outcome sched i with Some (Fulfilled _) => true | _ => false end.

Definition failed {R} (sched : list (nat * Settled R)) (i : nat) : bool :=
  match outcome sched i with Some (Rejected _) => true | _ => false end.

(** The items of [l] whose position and value pass [keep]; [i] is the
    position of the head of [l]. *)
Fixpoint keepFrom {A} (keep : nat → A → bool) (i : nat) (l : list A)
    : list A :=
  match l with
  | [] => []
  | a :: l' =>
      if keep i a then a :: keepFrom keep (Datatypes.S i) l'
      else keepFrom keep (Datatypes.S i) l'
  end.

Definition keepAt {A} (keep : nat → A → bool) (l : list A) : list A :=
  keepFrom keep 0 l.

(** *** Pools of callbacks that wait once

    The callbacks of the two bulk handlers wait for at most one call,
    and end normally once it has settled. Such a pool is described by a
    plan: for each task, what the settlement of its call does to the
    shared state, or [None] for a task that has finished. *)

Abbreviation Plan S R := (list (option (Settled R → S → S))) (only parsing).

Definition follows {S R} (k : Task S R) (c : option (Settled R → S → S))
    : Prop :=
  match k, c with
  | Finished _, None => True
  | Awaiting _ resume, Some f => ∀ r s, resume r s = (f r s, Finished Normal)
  | _, _ => False
  end.

(** Task [i] of the plan still waits. *)
Definition waits {S R} (plan : Plan S R) (i : nat) : bool :=
  match plan !! i with Some (Some _) => true | _ => false end.

(** The effect of one settlement on the shared state. *)
Definition fire {S R} (plan : Plan S R) (s : S) (ev : nat * Settled R) : S :=
  match plan !! ev.1 with
  | Some (Some f) => f ev.2 s
  | _ => s
  end.

(** The plan once the calls of a schedule have settled. *)
Definition retire {S R} (sched : list (nat * Settled R)) (plan : Plan S R)
    : Plan S R :=
  foldl (λ pl ev, <[ev.1 := None]> pl) plan sched.

(** What the settlement of the remove call of [todo] does. *)
Definition deleteAllStep (todo : Todo) (r : Settled unit) (fr : Frame)
    : Frame :=
  match r with
  | Fulfilled _ =>
      setUpdatedTodos
        (List.filter (λ item, negb (id item =? id todo)) (updatedTodos fr)) fr
  | Rejected _ =>
      onApp (setErrorMessage (Some (Js.lit "Unable to delete a todo"))) fr
  end.

Definition deleteAllPlan (l : list Todo) : Plan Frame unit :=
  (λ todo, if completed todo then Some (deleteAllStep todo) else None) <$> l.

(** Some remove call of the schedule that succeeded was for the id of
    [todo]. *)
Definition removedBy (l : list Todo) (sched : list (nat * Settled unit))
    (todo : Todo) : bool :=
  existsb (λ ev,
      isFulfilled ev.2
      && match l !! ev.1 with
         | Some todo' => id todo =? id todo'
         | None => false
         end)
    sched.

(** What the settlement of an update call of toggle-all towards [b]
    does. *)
Definition toggleAllStep (b : bool) (r : Settled unit) (fr : Frame) : Frame :=
  match r with
  | Fulfilled _ =>
      setUpdatedTodos (List.map (withCompleted b) (updatedTodos fr)) fr
  | Rejected _ =>
      onApp (setErrorMessage (Some (Js.lit "Unable to delete a todo"))) fr
  end.

Definition toggleAllPlan (allCompleted_ : bool) (l : list Todo)
    : Plan Frame unit :=
  (λ todo,
     if allCompleted_ then Some (toggleAllStep false)
     else if completed todo then None
     else Some (toggleAllStep true)) <$> l.

(** The update calls toggle-all is to make on a list. *)
Definition toggleAllRequests (allCompleted_ : bool) (l : list Todo)
    : list Request :=
  if allCompleted_ then
    List.map (λ todo, PatchTodo (id todo) (mkPartial (Some false) None)) l
  else
    List.map (λ todo, PatchTodo (id todo) (mkPartial (Some true) None))
             (List.filter (λ todo, negb (completed todo)) l).

(** The schedule that settles the waiting tasks of a plan in list order,
    task [i] with [res i]. *)
Definition inOrder {S R} (res : nat → Settled R) (plan : Plan S R)
    : list (nat * Settled R) :=
  List.map (λ i, (i, res i))
           (List.filter (waits plan) (seq 0 (length plan))).

(** ** Sample data *)

Module Sample.

Definition milk : Todo := mkTodo 1 7 (Js.lit "buy milk") false.
Definition bread : Todo := mkTodo 2 7 (Js.lit "buy bread") false.
Definition eggs : Todo := mkTodo 3 7 (Js.lit "buy eggs") true.
Definition tea : Todo := mkTodo 4 7 (Js.lit "buy tea") true.

Definition withTodos (l : list Todo) : AppState :=
  setTodosFromServer l initialState.

(** Two active items. *)
Definition twoActive : AppState := withTodos [milk; bread].

(** Two active items and two completed ones. *)
Definition mixed : AppState := withTodos [milk; eggs; bread; tea].

(** Only completed items. *)
Definition allDone : AppState := withTodos [eggs; tea].

(** The new-todo field holds blanks only. *)
Definition blankInput : AppState :=
  setInputValue (Js.lit "   ") twoActive.

(** The new-todo field holds a padded title. *)
Definition paddedInput : AppState :=
  setInputValue (Js.lit "  buy jam ") twoActive.

Definition jam : Todo := mkTodo 5 7 (Js.lit "buy jam") false.

(** A failed create has left its message in the error slot. *)
Definition staleError : AppState :=
  setErrorMessage (Some (Js.lit "Unable to add a todo")) twoActive.

Definition networkError : Thrown := ErrorObject (Js.lit "Failed to fetch").
Definition rejectedValue : Thrown := OtherValue (Js.lit "timeout").

(** The first item in edit mode, its field holding blanks only. *)
Definition editingBlank : TodoItem.View :=
  TodoItem.mkView (TodoItem.mkItem false true (Js.lit "   ")) twoActive.

(** The first item in edit mode, its field emptied. *)
Definition editingEmpty : TodoItem.View :=
  TodoItem.mkView (TodoItem.mkItem false true []) twoActive.

(** The first item in edit mode, its field holding a padded new title. *)
Definition editingPadded : TodoItem.View :=
  TodoItem.mkView (TodoItem.mkItem false true (Js.lit " buy oat milk "))
                  twoActive.

End Sample.

(** * Properties *)

(** ** Strings *)

Lemma isEmpty_nil (s : Js.str) : Js.isEmpty s = true ↔ s = [].
Proof. destruct s; simpl; split; congruence. Qed.

Lemma isEmpty_cons (s : Js.str) : Js.isEmpty s = false ↔ s ≠ [].
Proof. destruct s; simpl; split; congruence. Qed.

Lemma js_eqb_eq (s t : Js.str) : Js.eqb s t = true ↔ s = t.
Proof.
  revert t; induction s as [|c s IH]; intros [|d t]; simpl;
    try (split; congruence).
  rewrite andb_true_iff, N.eqb_eq, IH. split.
  - intros [-> ->]; reflexivity.
  - intros [= -> ->]; auto.
Qed.

Lemma trimStart_blank (s : Js.str) :
  Js.trimStart s = [] ↔ forallb Js.isWhiteSpace s = true.
Proof.
  induction s as [|c s IH]; simpl; [tauto|].
  destruct (Js.isWhiteSpace c); simpl; [exact IH|].
  split; discriminate.
Qed.

Lemma trimStart_keeps_blank (s : Js.str) :
  forallb Js.isWhiteSpace (Js.trimStart s) = true →
  forallb Js.isWhiteSpace s = true.
Proof.
  induction s as [|c s IH]; simpl; [auto|].
  destruct (Js.isWhiteSpace c) eqn:Hc; simpl; [exact IH|].
  rewrite Hc; simpl; auto.
Qed.

Lemma forallb_rev {A} (f : A → bool) (l : list A) :
  forallb f (rev l) = forallb f l.
Proof.
  induction l as [|a l IH]; simpl; [reflexivity|].
  rewrite forallb_app, IH; simpl. rewrite andb_true_r, andb_comm; reflexivity.
Qed.

(** The trimmed text is empty exactly when the text is all white space. *)
Lemma trim_blank (s : Js.str) :
  Js.trim s = [] ↔ forallb Js.isWhiteSpace s = true.
Proof.
  unfold Js.trim, Js.trimEnd. split.
  - intros H. apply trimStart_keeps_blank.
    rewrite <- forallb_rev. apply trimStart_blank.
    apply (f_equal (@rev N)) in H. rewrite rev_involutive in H. exact H.
  - intros H. apply trimStart_blank in H. rewrite H. reflexivity.
Qed.

Example trim_buy_milk : Js.trim (Js.lit "  buy milk  ") = Js.lit "buy milk".
Proof. reflexivity. Qed.

(** ** Create *)

(** C5. Create trims the submitted title. When nothing is left of it, the
    error slot gets the title-required message and the handler ends
    without a remote call. Otherwise it issues one create call with the
    trimmed title; when that call succeeds the returned todo goes to the
    end of the list, and when it fails the error slot gets the
    add-failure message and the list is as it was. The same holds of the
    list of any state [s] the call may settle in: the todo is appended to
    that list, or that list is left alone. *)
Theorem handlePostTodo_create (st : AppState) :
  let trimmed := Js.trim (inputValue st) in
  (trimmed = [] →
     pending (handlePostTodo st).2 = None
     ∧ isFinished (handlePostTodo st).2 = true
     ∧ errorMessage (handlePostTodo st).1
       = Some (Js.lit "Title should not be empty")
     ∧ todosFromServer (handlePostTodo st).1 = todosFromServer st)
  ∧ (trimmed ≠ [] →
     pending (handlePostTodo st).2 = Some (PostTodo trimmed)
     ∧ todosFromServer (handlePostTodo st).1 = todosFromServer st
     ∧ (∀ newPost,
          let after := settle (Fulfilled newPost) (handlePostTodo st) in
          todosFromServer after.1 = todosFromServer st ++ [newPost]
          ∧ errorMessage after.1 = None
          ∧ after.2 = Finished Normal)
     ∧ (∀ e,
          let after := settle (Rejected e) (handlePostTodo st) in
          todosFromServer after.1 = todosFromServer st
          ∧ errorMessage after.1 = Some (Js.lit "Unable to add a todo")
          ∧ after.2 = Finished Normal)
     ∧ (∀ s newPost,
          todosFromServer
            (settle (Fulfilled newPost) (s, (handlePostTodo st).2)).1
          = todosFromServer s ++ [newPost])
     ∧ (∀ s e,
          todosFromServer (settle (Rejected e) (s, (handlePostTodo st).2)).1
          = todosFromServer s)).
Proof.
  intros trimmed; subst trimmed. unfold handlePostTodo.
  destruct (Js.trim (inputValue st)) as [|c s] eqn:Htrim; simpl.
  - split; [intros _|congruence]. auto.
  - split; [discriminate|intros _]. auto 10.
Qed.

(** Both branches of C5 on sample input: a field of blanks, and a padded
    title whose create call succeeds. *)
Lemma handlePostTodo_create_witness :
  (pending (handlePostTodo Sample.blankInput).2 = None
   ∧ isFinished (handlePostTodo Sample.blankInput).2 = true
   ∧ errorMessage (handlePostTodo Sample.blankInput).1
     = Some (Js.lit "Title should not be empty")
   ∧ todosFromServer (handlePostTodo Sample.blankInput).1
     = [Sample.milk; Sample.bread])
  ∧ pending (handlePostTodo Sample.paddedInput).2
    = Some (PostTodo (Js.lit "buy jam"))
  ∧ todosFromServer
      (settle (Fulfilled Sample.jam) (handlePostTodo Sample.paddedInput)).1
    = [Sample.milk; Sample.bread; Sample.jam].
Proof.
  split.
  - apply (proj1 (handlePostTodo_create Sample.blankInput)). reflexivity.
  - pose proof (proj2 (handlePostTodo_create Sample.paddedInput)) as H.
    destruct H as (Hreq & _ & Hok & _); [discriminate|].
    split; [exact Hreq|]. exact (proj1 (Hok Sample.jam)).
Defined.

(** ** Delete one *)

(** Dropping an id that no entry has changes nothing. *)
Lemma filter_id_absent (tid : Z) (l : list Todo) :
  tid ∉ id <$> l →
  List.filter (λ todoItem, negb (id todoItem =? tid)) l = l.
Proof.
  induction l as [|x l IH]; simpl; [reflexivity|].
  rewrite not_elem_of_cons. intros [Hne Hnot].
  destruct (Z.eqb_spec (id x) tid) as [Heq|_]; simpl.
  - congruence.
  - rewrite IH; auto.
Qed.

(** With unique ids, dropping a present id cuts exactly one entry out. *)
Lemma filter_id_present (tid : Z) (l : list Todo) :
  NoDup (id <$> l) → tid ∈ id <$> l →
  ∃ before t after,
    l = before ++ t :: after ∧ id t = tid
    ∧ List.filter (λ todoItem, negb (id todoItem =? tid)) l = before ++ after.
Proof.
  induction l as [|x l IH]; simpl.
  - intros _ Hin. inversion Hin.
  - rewrite NoDup_cons, elem_of_cons. intros [Hx Hnd] Hin.
    destruct (Z.eqb_spec (id x) tid) as [Heq|Hne]; simpl.
    + exists [], x, l. subst tid. rewrite filter_id_absent by exact Hx. auto.
    + destruct Hin as [Hin|Hin]; [congruence|].
      destruct (IH Hnd Hin) as (before & t & after & -> & Ht & Hf).
      exists (x :: before), t, after. rewrite Hf. auto.
Qed.

(** C9. Delete-one on an id of the list (whose ids are unique, as the
    data model has it) issues the remove call for that id. When the call
    succeeds, the new list is the old one with the single entry of that
    id cut out, all others in place. When it fails, the list is the old
    one and the error slot holds the delete-failure message. *)
Theorem handleDeleteTodo_frame (st : AppState) (tid : Z) :
  NoDup (id <$> todosFromServer st) →
  tid ∈ id <$> todosFromServer st →
  pending (handleDeleteTodo tid st).2 = Some (DeleteTodo tid)
  ∧ todosFromServer (handleDeleteTodo tid st).1 = todosFromServer st
  ∧ (∃ before t after,
       todosFromServer st = before ++ t :: after
       ∧ id t = tid
       ∧ todosFromServer
           (settle (Fulfilled ()) (handleDeleteTodo tid st)).1
         = before ++ after)
  ∧ (∀ e,
       let after := settle (Rejected e) (handleDeleteTodo tid st) in
       todosFromServer after.1 = todosFromServer st
       ∧ errorMessage after.1 = Some (Js.lit "Unable to delete a todo")).
Proof.
  intros Hnd Hin. split; [reflexivity|]. split; [reflexivity|]. split.
  - destruct (filter_id_present tid _ Hnd Hin) as (before & t & after & H).
    exists before, t, after. exact H.
  - intros e. simpl. auto.
Qed.

(** C9 on the sample list: deleting the second of four. *)
Lemma handleDeleteTodo_frame_witness :
  pending (handleDeleteTodo 3 Sample.mixed).2 = Some (DeleteTodo 3)
  ∧ todosFromServer (handleDeleteTodo 3 Sample.mixed).1
    = todosFromServer Sample.mixed
  ∧ (∃ before t after,
       todosFromServer Sample.mixed = before ++ t :: after
       ∧ id t = 3
       ∧ todosFromServer
           (settle (Fulfilled ()) (handleDeleteTodo 3 Sample.mixed)).1
         = before ++ after)
  ∧ (∀ e,
       let after := settle (Rejected e) (handleDeleteTodo 3 Sample.mixed) in
       todosFromServer after.1 = todosFromServer Sample.mixed
       ∧ errorMessage after.1 = Some (Js.lit "Unable to delete a todo")).
Proof.
  apply (handleDeleteTodo_frame Sample.mixed 3).
  - compute_done.
  - compute_done.
Defined.

(** ** Update one *)

(** A rejection that is an [Error] is surfaced. *)
Lemma handleChangeTodo_error (st : AppState) (tid : Z) (data : ChangeData)
    (e : Thrown) :
  instanceofError e = true → updateFailureSurfaces st tid data e.
Proof.
  destruct e as [message|description]; [intros _|discriminate].
  unfold updateFailureSurfaces. simpl. auto.
Qed.

(** Any other rejection disappears without a trace. *)
Lemma handleChangeTodo_other (st : AppState) (tid : Z) (data : ChangeData)
    (e : Thrown) :
  instanceofError e = false →
  settle (Rejected e) (handleChangeTodo tid data st) = (st, Finished Normal).
Proof.
  destruct e as [message|description]; [discriminate|intros _]. reflexivity.
Qed.

(** The handlers other than update-one never throw. *)
Lemma swallows_spawn {A S R} (cb : A → S → S * Task S R) (l : list A) (s : S) :
  (∀ a s', swallows (cb a s').2) → Forall swallows (spawn cb l s).2.
Proof.
  intros Hcb. revert s. induction l as [|a l IH]; intros s; simpl.
  - constructor.
  - pose proof (Hcb a s) as Ha. destruct (cb a s) as [s1 k].
    pose proof (IH s1) as Hl. destruct (spawn cb l s1) as [s2 ks].
    simpl in *. constructor; assumption.
Qed.

Lemma swallows_startAll {A S R} (cb : A → S → S * Task S R) (l : list A)
    (s : S) :
  (∀ a s', swallows (cb a s').2) → Forall swallows (tasks (startAll cb l s)).
Proof.
  intros Hcb. unfold startAll.
  pose proof (swallows_spawn cb l s Hcb) as H.
  destruct (spawn cb l s) as [s' ks]. exact H.
Qed.

Lemma swallows_settleAt {S R} (ev : nat * Settled R) (p p' : Pool S R) :
  Forall swallows (tasks p) → settleAt ev p = Some p' →
  Forall swallows (tasks p').
Proof.
  unfold settleAt. intros Hall.
  destruct (tasks p !! ev.1) as [[c|req resume]|] eqn:Hk; try discriminate.
  pose proof (Forall_lookup_1 _ _ _ _ Hall Hk) as Hs. simpl in Hs.
  specialize (Hs ev.2 (frame p)).
  destruct (resume ev.2 (frame p)) as [s' k']. intros [= <-]. simpl.
  apply Forall_insert; assumption.
Qed.

Lemma swallows_run {S R} (sched : list (nat * Settled R)) (p p' : Pool S R) :
  Forall swallows (tasks p) → run sched p = Some p' →
  Forall swallows (tasks p').
Proof.
  revert p. induction sched as [|ev sched IH]; intros p Hall; simpl.
  - intros [= <-]. exact Hall.
  - destruct (settleAt ev p) as [p1|] eqn:H1; [|discriminate].
    apply IH. eapply swallows_settleAt; eassumption.
Qed.

Lemma deleteAllCallback_swallows (todo : Todo) (fr : Frame) :
  swallows (deleteAllCallback todo fr).2.
Proof.
  unfold deleteAllCallback. destruct (completed todo); simpl; [|reflexivity].
  intros [[]|e] s; reflexivity.
Qed.

Lemma toggleAllCallback_swallows (b : bool) (todo : Todo) (fr : Frame) :
  swallows (toggleAllCallback b todo fr).2.
Proof.
  assert (Hsecond : ∀ fr', swallows (toggleAllSecond b todo fr').2).
  { intros fr'. unfold toggleAllSecond.
    destruct (completed todo); simpl; [reflexivity|].
    intros [[]|e] s; reflexivity. }
  unfold toggleAllCallback. destruct b; simpl; [|apply Hsecond].
  intros [[]|e] s; [|reflexivity].
  pose proof (Hsecond s) as H.
  destruct (toggleAllSecond true todo s) as [s' k']. exact H.
Qed.

(** C6, as it holds. When the update call rejects with an [Error],
    update-one shows the update-failure message, leaves the list as it
    was and throws the same error on to its caller. No other operation
    throws: load, create and delete-one end normally however their call
    settles, and so does every callback of the two bulk operations,
    under every schedule. *)
Theorem handleChangeTodo_rethrows (st : AppState) (tid : Z)
    (data : ChangeData) (e : Thrown) :
  instanceofError e = true →
  updateFailureSurfaces st tid data e
  ∧ (∀ st', swallows (loadTodos st').2)
  ∧ (∀ st', swallows (handlePostTodo st').2)
  ∧ (∀ st' tid', swallows (handleDeleteTodo tid' st').2)
  ∧ (∀ st' sched p,
       run sched (handleDeleteAll_begin st') = Some p →
       Forall swallows (tasks p))
  ∧ (∀ st' sched p,
       run sched (handleToggleAll_begin st') = Some p →
       Forall swallows (tasks p)).
Proof.
  intros He. split; [apply handleChangeTodo_error; exact He|].
  split; [intros st' [todos|e'] s; reflexivity|].
  split.
  { intros st'. unfold handlePostTodo.
    destruct (Js.isEmpty _); simpl; [reflexivity|].
    intros [newPost|e'] s; reflexivity. }
  split; [intros st' tid' [[]|e'] s; reflexivity|].
  split; intros st' sched p; apply swallows_run, swallows_startAll.
  - apply deleteAllCallback_swallows.
  - apply toggleAllCallback_swallows.
Qed.

(** C6 on the sample list, for a network error. *)
Lemma handleChangeTodo_rethrows_witness :
  updateFailureSurfaces Sample.twoActive 1 (ofBoolean true)
                        Sample.networkError.
Proof.
  apply (handleChangeTodo_rethrows Sample.twoActive 1 (ofBoolean true)
                                   Sample.networkError).
  reflexivity.
Defined.

(** C6 as the specification words it, for every failure of the call,
    does not hold: a rejection with a value that is not an [Error] sets
    no message and throws nothing. *)
Lemma handleChangeTodo_rethrows_counterexample :
  ¬ updateFailureSurfaces Sample.twoActive 1 (ofBoolean true)
                          Sample.rejectedValue.
Proof. intros (Hmsg & _ & _). simpl in Hmsg. discriminate Hmsg. Qed.

(** C10. When the update call rejects with a value that is not an
    [Error], update-one ends normally: nothing is thrown, the error slot
    holds what it held before, and so does the list; indeed the whole
    state is the one the operation started from. *)
Theorem handleChangeTodo_silent (st : AppState) (tid : Z) (data : ChangeData)
    (e : Thrown) :
  instanceofError e = false →
  let after := settle (Rejected e) (handleChangeTodo tid data st) in
  after.2 = Finished Normal
  ∧ errorMessage after.1 = errorMessage st
  ∧ todosFromServer after.1 = todosFromServer st
  ∧ after.1 = st.
Proof.
  intros He after; subst after.
  rewrite (handleChangeTodo_other st tid data e He). auto.
Qed.

(** C10 on the sample list. *)
Lemma handleChangeTodo_silent_witness :
  let after :=
    settle (Rejected Sample.rejectedValue)
           (handleChangeTodo 1 (ofString (Js.lit "buy oat milk"))
                             Sample.twoActive) in
  after.2 = Finished Normal
  ∧ errorMessage after.1 = errorMessage Sample.twoActive
  ∧ todosFromServer after.1 = todosFromServer Sample.twoActive
  ∧ after.1 = Sample.twoActive.
Proof.
  apply (handleChangeTodo_silent Sample.twoActive 1
           (ofString (Js.lit "buy oat milk")) Sample.rejectedValue).
  reflexivity.
Defined.

(** ** Title edit *)

(** An emptied field goes to delete-one. *)
Lemma handleTitleChange_empty (todo : Todo) (w : TodoItem.View) :
  TodoItem.inputValue (TodoItem.item w) = [] →
  pending (TodoItem.handleTitleChange todo w).2 = Some (DeleteTodo (id todo)).
Proof.
  intros H. unfold TodoItem.handleTitleChange. rewrite H. reflexivity.
Qed.

(** A field that is neither empty nor the old title goes to update-one,
    which sends it trimmed. *)
Lemma handleTitleChange_update (todo : Todo) (w : TodoItem.View) :
  TodoItem.inputValue (TodoItem.item w) ≠ [] →
  TodoItem.inputValue (TodoItem.item w) ≠ title todo →
  pending (TodoItem.handleTitleChange todo w).2
  = Some (PatchTodo (id todo)
            (mkPartial None
               (Some (Js.trim (TodoItem.inputValue (TodoItem.item w)))))).
Proof.
  intros Hne Hnt. unfold TodoItem.handleTitleChange.
  apply isEmpty_cons in Hne. rewrite Hne.
  destruct (Js.eqb _ (title todo)) eqn:Heq.
  - apply js_eqb_eq in Heq. contradiction.
  - reflexivity.
Qed.

Example handleTitleChange_padded :
  pending (TodoItem.handleTitleChange Sample.milk Sample.editingPadded).2
  = Some (PatchTodo 1 (mkPartial None (Some (Js.lit "buy oat milk")))).
Proof. reflexivity. Qed.

(** C7 at a field of blanks. The text trims to nothing, yet the edit is
    not redirected to delete-one: an update call with the empty title
    goes out, and once it succeeds the list holds a todo without title.
    Only the field that is empty as typed is redirected. *)
Theorem handleTitleChange_blank_is_updated :
  let edit := TodoItem.handleTitleChange Sample.milk Sample.editingBlank in
  Js.trim (TodoItem.inputValue (TodoItem.item Sample.editingBlank)) = []
  ∧ pending edit.2 = Some (PatchTodo 1 (mkPartial None (Some [])))
  ∧ todosFromServer (TodoItem.parent (settle (Fulfilled ()) edit).1)
    = [mkTodo 1 7 [] false; Sample.bread]
  ∧ pending (TodoItem.handleTitleChange Sample.milk Sample.editingEmpty).2
    = Some (DeleteTodo 1).
Proof. repeat split. Qed.

(** ** Toggle all, call by call *)

(** C4 at the sample list with the first update call failing. The error
    slot gets the message of the delete category, not the one of the
    update category that update-one shows. *)
Theorem handleToggleAll_failure_message :
  (errorMessage ∘ fst)
    <$> handleToggleAll Sample.twoActive
          [(0%nat, Rejected Sample.networkError); (1%nat, Fulfilled ())]
  = Some (Some (Js.lit "Unable to delete a todo"))
  ∧ Js.lit "Unable to delete a todo" ≠ Js.lit "Unable to update a todo".
Proof. split; [reflexivity|discriminate]. Qed.

(** C2 at the sample list, the update call of the first item succeeding
    and that of the second failing, in either order of settlement. The
    second item ends up completed although its call failed: the success
    of one call rewrites the flag of every item in the working copy. *)
Theorem handleToggleAll_failed_item_changes :
  (todosFromServer ∘ fst)
    <$> handleToggleAll Sample.twoActive
          [(0%nat, Fulfilled ()); (1%nat, Rejected Sample.networkError)]
  = Some [withCompleted true Sample.milk; withCompleted true Sample.bread]
  ∧ (todosFromServer ∘ fst)
      <$> handleToggleAll Sample.twoActive
            [(1%nat, Rejected Sample.networkError); (0%nat, Fulfilled ())]
    = Some [withCompleted true Sample.milk; withCompleted true Sample.bread]
  ∧ completed Sample.bread = false.
Proof. repeat split. Qed.

(** ** Pools of callbacks that wait once *)

Section OneShot.

Context {S R : Type}.
Implicit Types (p : Pool S R) (plan : Plan S R).
Implicit Types (sched : list (nat * Settled R)).

Lemma waits_lookup plan i :
  waits plan i = true ↔ ∃ f, plan !! i = Some (Some f).
Proof.
  unfold waits. destruct (plan !! i) as [[f|]|]; split;
    try discriminate; try (intros [g [=]]); eauto.
Qed.

Lemma waits_retire_one plan i j :
  waits (<[i := None]> plan) j = waits plan j && negb (Nat.eqb i j).
Proof.
  unfold waits. destruct (Nat.eqb_spec i j) as [->|Hne].
  - rewrite andb_false_r.
    destruct (decide (j < length plan)%nat) as [Hlt|Hge].
    + rewrite list_lookup_insert_eq by exact Hlt. reflexivity.
    + rewrite list_insert_ge by lia.
      rewrite (lookup_ge_None_2 plan j) by lia. reflexivity.
  - rewrite list_lookup_insert_ne by exact Hne. rewrite andb_true_r.
    reflexivity.
Qed.

Lemma settleAt_follows i r p p' plan :
  Forall2 follows (tasks p) plan →
  settleAt (i, r) p = Some p' →
  ∃ f, plan !! i = Some (Some f)
       ∧ frame p' = f r (frame p)
       ∧ trace p' = trace p
       ∧ Forall2 follows (tasks p') (<[i := None]> plan).
Proof.
  unfold settleAt. simpl. intros Hall.
  destruct (tasks p !! i) as [[c|req resume]|] eqn:Hk; try discriminate.
  destruct (Forall2_lookup_l _ _ _ _ _ Hall Hk) as ([f|] & Hf & Hfol);
    [|contradiction].
  simpl in Hfol. rewrite Hfol. intros [= <-]. simpl.
  exists f. rewrite app_nil_r. repeat split; try assumption.
  apply Forall2_insert; [exact Hall|exact I].
Qed.

Lemma settleAt_defined i r p plan :
  Forall2 follows (tasks p) plan → waits plan i = true →
  ∃ p', settleAt (i, r) p = Some p'.
Proof.
  intros Hall Hw. apply waits_lookup in Hw as [f Hf].
  destruct (Forall2_lookup_r _ _ _ _ _ Hall Hf) as ([c|req resume] & Hk & Hfol);
    [contradiction|].
  unfold settleAt. simpl. rewrite Hk.
  destruct (resume r (frame p)) as [s' k']. eauto.
Qed.

(** Settlements of tasks that wait in two plans alike fire alike. *)
Lemma foldl_fire_ext plan plan' sched (s : S) :
  Forall (λ ev, plan' !! ev.1 = plan !! ev.1) sched →
  foldl (fire plan') s sched = foldl (fire plan) s sched.
Proof.
  intros Hall. revert s. induction Hall as [|ev sched Hev _ IH]; intros s.
  - reflexivity.
  - simpl. unfold fire at 2 4. rewrite Hev. apply IH.
Qed.

(** What a run of a pool that follows a plan amounts to: no call
    settles twice, every settlement is of a task that waits, the shared
    state is the fold of the settlements, and no further call is
    made. *)
Lemma run_follows sched : ∀ p p' plan,
  Forall2 follows (tasks p) plan →
  run sched p = Some p' →
  NoDup sched.*1
  ∧ Forall (λ ev, waits plan ev.1 = true) sched
  ∧ frame p' = foldl (fire plan) (frame p) sched
  ∧ trace p' = trace p
  ∧ Forall2 follows (tasks p') (retire sched plan).
Proof.
  induction sched as [|[i r] sched IH]; intros p p' plan Hall; simpl.
  - intros [= <-]. repeat split; try constructor. exact Hall.
  - destruct (settleAt (i, r) p) as [p1|] eqn:H1; [|discriminate].
    destruct (settleAt_follows _ _ _ _ _ Hall H1)
      as (f & Hf & Hframe & Htrace & Hall1).
    intros Hrun.
    destruct (IH _ _ _ Hall1 Hrun) as (Hnd & Hw & Hfr & Htr & Hfin).
    assert (Hw' : Forall (λ ev, waits plan ev.1 = true ∧ i ≠ ev.1) sched).
    { eapply Forall_impl; [exact Hw|]. intros ev Hev. simpl in Hev.
      rewrite waits_retire_one in Hev. apply andb_true_iff in Hev as [? Hne].
      split; [assumption|]. apply negb_true_iff, Nat.eqb_neq in Hne.
      exact Hne. }
    split; [|split; [|split; [|split]]].
    + apply NoDup_cons_2; [|exact Hnd].
      intros Hin. apply list_elem_of_fmap in Hin as (ev & -> & Hin).
      rewrite Forall_forall in Hw'. destruct (Hw' ev Hin) as [_ Hne].
      congruence.
    + constructor.
      * simpl. apply waits_lookup. eauto.
      * eapply Forall_impl; [exact Hw'|]. intros ev [? _]. assumption.
    + rewrite Hfr, Hframe. unfold fire at 3. simpl. rewrite Hf.
      apply foldl_fire_ext.
      eapply Forall_impl; [exact Hw'|]. intros ev [_ Hne].
      apply list_lookup_insert_ne. exact Hne.
    + congruence.
    + exact Hfin.
Qed.

Lemma waits_retire sched : ∀ plan i,
  waits (retire sched plan) i
  = waits plan i && negb (bool_decide (i ∈ sched.*1)).
Proof.
  induction sched as [|[j r] sched IH]; intros plan i; simpl.
  - rewrite andb_true_r. reflexivity.
  - unfold retire in *. simpl. rewrite IH, waits_retire_one.
    rewrite <- andb_assoc. f_equal.
    destruct (Nat.eqb_spec j i) as [->|Hne]; simpl.
    + rewrite bool_decide_eq_true_2 by (left). reflexivity.
    + destruct (decide (i ∈ sched.*1)) as [Hin|Hnin].
      * rewrite !bool_decide_eq_true_2; [reflexivity| |exact Hin].
        right. exact Hin.
      * rewrite !bool_decide_eq_false_2; [reflexivity| |exact Hnin].
        rewrite elem_of_cons. intros [?|?]; [congruence|contradiction].
Qed.

Lemma follows_finished (ks : list (Task S R)) plan :
  Forall2 follows ks plan →
  forallb isFinished ks = true ↔ ∀ i, waits plan i = false.
Proof.
  intros Hall. induction Hall as [|k c ks plan Hk _ IH]; simpl.
  - split; [intros _ i|reflexivity]. unfold waits. rewrite lookup_nil.
    reflexivity.
  - rewrite andb_true_iff, IH. split.
    + intros [Hfin Hrest] [|i]; [|apply (Hrest i)].
      destruct k, c; try discriminate; try contradiction. reflexivity.
    + intros Hno. split; [|intros i; apply (Hno (Datatypes.S i))].
      specialize (Hno O). destruct k, c; try contradiction;
        try discriminate; reflexivity.
Qed.

(** [Promise.allSettled] has resolved exactly when every task that
    waited at the start has had its call settled. *)
Lemma allSettled_follows sched p p' plan :
  Forall2 follows (tasks p) plan →
  run sched p = Some p' →
  allSettled p' = true ↔ ∀ i, waits plan i = true → i ∈ sched.*1.
Proof.
  intros Hall Hrun.
  destruct (run_follows _ _ _ _ Hall Hrun) as (_ & _ & _ & _ & Hfin).
  unfold allSettled. rewrite (follows_finished _ _ Hfin).
  split; intros H i.
  - intros Hw. specialize (H i). rewrite waits_retire, Hw in H. simpl in H.
    apply negb_false_iff, bool_decide_eq_true in H. exact H.
  - rewrite waits_retire. destruct (waits plan i) eqn:Hw; [|reflexivity].
    simpl. apply negb_false_iff, bool_decide_eq_true, H. exact Hw.
Qed.

(** Any schedule that settles waiting tasks, each at most once, can be
    run. *)
Lemma run_defined sched : ∀ p plan,
  Forall2 follows (tasks p) plan →
  NoDup sched.*1 →
  Forall (λ ev, waits plan ev.1 = true) sched →
  ∃ p', run sched p = Some p'.
Proof.
  induction sched as [|[i r] sched IH]; intros p plan Hall Hnd Hw; simpl.
  - eauto.
  - apply NoDup_cons in Hnd as [Hi Hnd]. apply Forall_cons in Hw as [Hwi Hw].
    destruct (settleAt_defined i r p plan Hall Hwi) as [p1 H1].
    rewrite H1.
    destruct (settleAt_follows _ _ _ _ _ Hall H1) as (f & _ & _ & _ & Hall1).
    apply (IH p1 _ Hall1 Hnd).
    rewrite Forall_forall in Hw |- *. intros ev Hev.
    rewrite waits_retire_one, (Hw ev Hev). simpl.
    apply negb_true_iff, Nat.eqb_neq. intros Heq.
    apply Hi, list_elem_of_fmap. exists ev. split; [exact Heq|exact Hev].
Qed.

End OneShot.

(** ** Schedules *)

Section Schedules.

Context {R : Type}.
Implicit Types (sched : list (nat * Settled R)).

Lemma outcome_elem sched i r :
  outcome sched i = Some r → (i, r) ∈ sched.
Proof.
  induction sched as [|[j r'] sched IH]; simpl; [discriminate|].
  destruct (Nat.eqb_spec j i) as [->|_].
  - intros [= ->]. left.
  - intros H. right. apply IH, H.
Qed.

Lemma elem_outcome sched i r :
  NoDup sched.*1 → (i, r) ∈ sched → outcome sched i = Some r.
Proof.
  induction sched as [|[j r'] sched IH]; simpl.
  - intros _ Hin. inversion Hin.
  - rewrite NoDup_cons, elem_of_cons. intros [Hj Hnd] [Heq|Hin].
    + injection Heq as -> ->. rewrite Nat.eqb_refl. reflexivity.
    + destruct (Nat.eqb_spec j i) as [->|_]; [|apply IH; assumption].
      exfalso. apply Hj, list_elem_of_fmap. exists (i, r). auto.
Qed.

Lemma elem_fst_outcome sched i :
  i ∈ sched.*1 → ∃ r, outcome sched i = Some r.
Proof.
  induction sched as [|[j r'] sched IH]; simpl.
  - intros Hin. inversion Hin.
  - rewrite elem_of_cons. destruct (Nat.eqb_spec j i) as [->|Hne]; [eauto|].
    intros [Heq|Hin]; [congruence|]. apply IH, Hin.
Qed.

Lemma failed_elem sched i :
  failed sched i = true ↔ ∃ e, outcome sched i = Some (Rejected e).
Proof.
  unfold failed. destruct (outcome sched i) as [[v|e]|]; split;
    try discriminate; try (intros [e' [=]]); eauto.
Qed.

Lemma succeeded_elem sched i :
  succeeded sched i = true ↔ ∃ v, outcome sched i = Some (Fulfilled v).
Proof.
  unfold succeeded. destruct (outcome sched i) as [[v|e]|]; split;
    try discriminate; try (intros [e' [=]]); eauto.
Qed.

End Schedules.

Lemma keepFrom_filter {A} (keep : nat → A → bool) (g : A → bool)
    (l : list A) : ∀ i,
  (∀ j a, l !! j = Some a → keep (i + j)%nat a = g a) →
  keepFrom keep i l = List.filter g l.
Proof.
  induction l as [|a l IH]; intros i Hk; simpl; [reflexivity|].
  rewrite <- (Hk O a eq_refl), Nat.add_0_r.
  rewrite (IH (Datatypes.S i)); [reflexivity|].
  intros j b Hb. rewrite <- (Hk (Datatypes.S j) b Hb). f_equal. lia.
Qed.

Lemma keepAt_filter {A} (keep : nat → A → bool) (g : A → bool) (l : list A) :
  (∀ i a, l !! i = Some a → keep i a = g a) →
  keepAt keep l = List.filter g l.
Proof. intros Hk. apply keepFrom_filter. exact Hk. Qed.

(** ** Clear completed *)

(** The callbacks start without touching the shared state; those of the
    completed items wait for their remove call, the others are done. *)
Lemma spawn_deleteAll (l : list Todo) (fr : Frame) :
  (spawn deleteAllCallback l fr).1 = fr
  ∧ Forall2 follows (spawn deleteAllCallback l fr).2 (deleteAllPlan l)
  ∧ omap pending (spawn deleteAllCallback l fr).2
    = (λ todo, DeleteTodo (id todo))
        <$> List.filter (λ todo, completed todo) l.
Proof.
  induction l as [|todo l (IHfr & IHplan & IHreq)]; simpl.
  - repeat split. constructor.
  - unfold deleteAllCallback at 1 3 5.
    destruct (completed todo) eqn:Hc;
      destruct (spawn deleteAllCallback l fr) as [fr' ks]; simpl in *;
      (split; [exact IHfr|]); split.
    + constructor; [|exact IHplan]. intros [[]|e] s; reflexivity.
    + f_equal. exact IHreq.
    + constructor; [exact I|exact IHplan].
    + exact IHreq.
Qed.

Lemma handleDeleteAll_begin_follows (st : AppState) :
  frame (handleDeleteAll_begin st)
  = mkFrame (setErrorMessage None (setDeleteAll true st)) (todosFromServer st)
  ∧ Forall2 follows (tasks (handleDeleteAll_begin st))
            (deleteAllPlan (todosFromServer st))
  ∧ trace (handleDeleteAll_begin st)
    = (λ todo, DeleteTodo (id todo)) <$> completedTodos st.
Proof.
  unfold handleDeleteAll_begin, startAll. simpl.
  pose proof (spawn_deleteAll (todosFromServer st)
    (mkFrame (setErrorMessage None (setDeleteAll true st))
             (todosFromServer st))) as (Hfr & Hplan & Hreq).
  destruct (spawn deleteAllCallback _ _) as [fr ks]. simpl in *.
  subst fr. auto.
Qed.

Lemma waits_deleteAll (l : list Todo) (i : nat) :
  waits (deleteAllPlan l) i = true ↔
  ∃ todo, l !! i = Some todo ∧ completed todo = true.
Proof.
  unfold waits, deleteAllPlan. rewrite list_lookup_fmap.
  destruct (l !! i) as [todo|]; simpl.
  - destruct (completed todo) eqn:Hc; split.
    + eauto.
    + reflexivity.
    + discriminate.
    + intros (todo' & [= <-] & Hc'). congruence.
  - split; [discriminate|]. intros (todo & [=] & _).
Qed.

Lemma filter_filter {A} (f g : A → bool) (l : list A) :
  List.filter f (List.filter g l) = List.filter (λ a, g a && f a) l.
Proof.
  induction l as [|a l IH]; simpl; [reflexivity|].
  destruct (g a); simpl; [destruct (f a)|]; rewrite IH; reflexivity.
Qed.

(** The shared state after the settlements of a schedule: the working
    copy has lost the ids whose remove call succeeded, and the error
    slot has the delete-failure message once some call has failed. *)
Lemma deleteAll_fold (l : list Todo) (sched : list (nat * Settled unit)) :
  ∀ fr,
  Forall (λ ev, waits (deleteAllPlan l) ev.1 = true) sched →
  foldl (fire (deleteAllPlan l)) fr sched
  = mkFrame
      (if existsb (λ ev, isRejected ev.2) sched
       then setErrorMessage (Some (Js.lit "Unable to delete a todo")) (app fr)
       else app fr)
      (List.filter (λ todo, negb (removedBy l sched todo)) (updatedTodos fr)).
Proof.
  induction sched as [|[i r] sched IH]; intros fr Hw; simpl.
  - destruct fr as [a u]; simpl. f_equal.
    induction u as [|x u IHu]; simpl; congruence.
  - apply Forall_cons in Hw as [Hi Hw]. rewrite (IH _ Hw). clear IH.
    simpl in Hi. apply waits_deleteAll in Hi as (todo & Hl & Hc).
    unfold fire at 1 2 3. unfold deleteAllPlan at 1 2 3.
    simpl. rewrite list_lookup_fmap, Hl. simpl. rewrite Hc.
    destruct r as [[]|e]; simpl.
    + f_equal. rewrite filter_filter. apply List.filter_ext. intros a.
      rewrite negb_orb. reflexivity.
    + f_equal. destruct (existsb _ sched); reflexivity.
Qed.

Section DeleteAllSettled.

Variables (l : list Todo) (sched : list (nat * Settled unit)).
Hypothesis ids_unique : NoDup (id <$> l).
Hypothesis once : NoDup sched.*1.
Hypothesis only_waiting :
  Forall (λ ev, waits (deleteAllPlan l) ev.1 = true) sched.
Hypothesis all_settled :
  ∀ i, waits (deleteAllPlan l) i = true → i ∈ sched.*1.

Lemma same_id_same_place i j (a b : Todo) :
  l !! i = Some a → l !! j = Some b → id a = id b → i = j.
Proof using ids_unique.
  intros Ha Hb Hid. apply (NoDup_lookup (id <$> l) i j (id a)).
  - exact ids_unique.
  - rewrite list_lookup_fmap, Ha. reflexivity.
  - rewrite list_lookup_fmap, Hb, Hid. reflexivity.
Qed.

(** An item is removed exactly when its own call succeeded. *)
Lemma removedBy_succeeded i (todo : Todo) :
  l !! i = Some todo →
  removedBy l sched todo = succeeded sched i.
Proof using ids_unique once.
  intros Hl. apply eq_true_iff_eq. unfold removedBy.
  rewrite existsb_exists, succeeded_elem. split.
  - intros ([j r] & Hin & Hev). simpl in Hev.
    apply andb_true_iff in Hev as [Hr Hid].
    destruct (l !! j) as [todo'|] eqn:Hj; [|discriminate].
    apply Z.eqb_eq in Hid.
    pose proof (same_id_same_place _ _ _ _ Hl Hj Hid) as <-.
    destruct r as [v|e]; [|discriminate]. exists v.
    apply elem_outcome; [exact once|]. apply list_elem_of_In, Hin.
  - intros [v Hv]. exists (i, Fulfilled v). split.
    + apply list_elem_of_In, outcome_elem, Hv.
    + simpl. rewrite Hl. apply Z.eqb_refl.
Qed.

(** Every completed item has had its call settled, one way or the
    other; no other item has. *)
Lemma completed_settled i (todo : Todo) :
  l !! i = Some todo →
  succeeded sched i = completed todo && negb (failed sched i).
Proof using once only_waiting all_settled.
  intros Hl. unfold succeeded, failed.
  destruct (completed todo) eqn:Hc; simpl.
  - destruct (elem_fst_outcome sched i) as [r ->].
    { apply all_settled, waits_deleteAll. eauto. }
    destruct r; reflexivity.
  - destruct (outcome sched i) as [r|] eqn:Ho; [|reflexivity].
    apply outcome_elem in Ho. rewrite Forall_forall in only_waiting.
    apply only_waiting in Ho. simpl in Ho.
    apply waits_deleteAll in Ho as (todo' & Hl' & Hc'). congruence.
Qed.

Lemma deleteAll_kept :
  List.filter (λ todo, negb (removedBy l sched todo)) l
  = keepAt (λ i todo, negb (completed todo && negb (failed sched i))) l.
Proof using ids_unique once only_waiting all_settled.
  symmetry. apply keepAt_filter. intros i todo Hl.
  rewrite (removedBy_succeeded i todo Hl), (completed_settled i todo Hl).
  reflexivity.
Qed.

Lemma rejected_failed :
  existsb (λ ev : nat * Settled unit, isRejected ev.2) sched = true ↔
  ∃ i, failed sched i = true.
Proof using once.
  rewrite existsb_exists. split.
  - intros ([i r] & Hin & Hr). exists i. apply failed_elem.
    destruct r as [v|e]; [discriminate|]. exists e.
    apply elem_outcome; [exact once|]. apply list_elem_of_In, Hin.
  - intros (i & Hi). apply failed_elem in Hi as (e & He).
    exists (i, Rejected e). split; [|reflexivity].
    apply list_elem_of_In, outcome_elem, He.
Qed.

End DeleteAllSettled.

(** What a completed clear-completed has gone through. *)
Lemma handleDeleteAll_settled (st st' : AppState)
    (sched : list (nat * Settled unit)) (reqs : list Request) :
  handleDeleteAll st sched = Some (st', reqs) →
  let l := todosFromServer st in
  NoDup sched.*1
  ∧ Forall (λ ev, waits (deleteAllPlan l) ev.1 = true) sched
  ∧ (∀ i, waits (deleteAllPlan l) i = true → i ∈ sched.*1)
  ∧ reqs = (λ todo, DeleteTodo (id todo)) <$> completedTodos st
  ∧ todosFromServer st'
    = List.filter (λ todo, negb (removedBy l sched todo)) l
  ∧ errorMessage st'
    = (if existsb (λ ev, isRejected ev.2) sched
       then Some (Js.lit "Unable to delete a todo") else None)
  ∧ deleteAll st' = false.
Proof.
  intros Hout l. unfold handleDeleteAll in Hout.
  destruct (run sched (handleDeleteAll_begin st)) as [p|] eqn:Hrun;
    [|discriminate].
  destruct (allSettled p) eqn:Hall; [|discriminate].
  injection Hout as <- <-.
  destruct (handleDeleteAll_begin_follows st) as (Hfr & Hplan & Htrace).
  destruct (run_follows _ _ _ _ Hplan Hrun) as (Hnd & Hw & Hframe & Htr & _).
  pose proof (proj1 (allSettled_follows _ _ _ _ Hplan Hrun) Hall) as Hcov.
  rewrite Hfr, (deleteAll_fold _ _ _ Hw) in Hframe.
  unfold handleDeleteAll_end. rewrite Hframe, Htr, Htrace. simpl.
  repeat split; try assumption.
  destruct (existsb _ sched); reflexivity.
Qed.

(** Every schedule that settles each issued remove call once, and
    nothing else, completes clear-completed. *)
Lemma handleDeleteAll_defined (st : AppState)
    (sched : list (nat * Settled unit)) :
  let plan := deleteAllPlan (todosFromServer st) in
  NoDup sched.*1 →
  Forall (λ ev, waits plan ev.1 = true) sched →
  (∀ i, waits plan i = true → i ∈ sched.*1) →
  ∃ out, handleDeleteAll st sched = Some out.
Proof.
  intros plan Hnd Hw Hcov. unfold handleDeleteAll.
  destruct (handleDeleteAll_begin_follows st) as (_ & Hplan & _).
  destruct (run_defined sched _ _ Hplan Hnd Hw) as [p Hrun]. rewrite Hrun.
  rewrite (proj2 (allSettled_follows _ _ _ _ Hplan Hrun) Hcov). eauto.
Qed.

(** C1. Clear-completed on a list with unique ids, under any schedule
    that settles its calls: one remove call goes out per completed item.
    With S the items whose call failed (all of them completed items),
    the new list is the old one without the completed items that are
    not in S. No item whose call succeeded is in it, every item whose
    call failed is, and the error slot holds the delete-failure message
    if S has an element and is empty if S has none. *)
Theorem handleDeleteAll_partial_failure (st st' : AppState)
    (sched : list (nat * Settled unit)) (reqs : list Request) :
  NoDup (id <$> todosFromServer st) →
  handleDeleteAll st sched = Some (st', reqs) →
  let l := todosFromServer st in
  reqs = (λ todo, DeleteTodo (id todo)) <$> completedTodos st
  ∧ (∀ i, failed sched i = true →
          ∃ todo, l !! i = Some todo ∧ completed todo = true)
  ∧ todosFromServer st'
    = keepAt (λ i todo, negb (completed todo && negb (failed sched i))) l
  ∧ (∀ i todo, l !! i = Some todo → succeeded sched i = true →
               todo ∉ todosFromServer st')
  ∧ (∀ i todo, l !! i = Some todo → failed sched i = true →
               todo ∈ todosFromServer st')
  ∧ (errorMessage st' = Some (Js.lit "Unable to delete a todo")
     ↔ ∃ i, failed sched i = true)
  ∧ (errorMessage st' = None ↔ ∀ i, failed sched i = false).
Proof.
  intros Hids Hrun l.
  destruct (handleDeleteAll_settled _ _ _ _ Hrun)
    as (Hnd & Hw & Hcov & Hreqs & Htodos & Herr & _).
  fold l in Hw, Hcov, Htodos.
  pose proof (rejected_failed sched Hnd) as Hrej.
  split; [exact Hreqs|]. split; [|split; [|split; [|split; [|split]]]].
  - intros i Hi. apply failed_elem in Hi as (e & He).
    apply outcome_elem in He. rewrite Forall_forall in Hw.
    apply (waits_deleteAll l i), (Hw _ He).
  - rewrite Htodos. apply deleteAll_kept; assumption.
  - intros i todo Hl Hs. rewrite Htodos, list_elem_of_In, filter_In.
    intros [_ Hkeep].
    rewrite (removedBy_succeeded l sched Hids Hnd i todo Hl), Hs in Hkeep.
    discriminate.
  - intros i todo Hl Hf. rewrite Htodos, list_elem_of_In, filter_In. split.
    + apply list_elem_of_In, (list_elem_of_lookup_2 l i), Hl.
    + rewrite (removedBy_succeeded l sched Hids Hnd i todo Hl).
      unfold succeeded, failed in *.
      destruct (outcome sched i) as [[v|e]|]; try discriminate; reflexivity.
  - rewrite Herr, <- Hrej.
    destruct (existsb _ sched); split; congruence.
  - rewrite Herr. split.
    + intros Hnone i. destruct (failed sched i) eqn:Hf; [|reflexivity].
      rewrite (proj2 Hrej (ex_intro _ i Hf)) in Hnone. discriminate.
    + intros Hno. destruct (existsb _ sched) eqn:Hex; [|reflexivity].
      destruct (proj1 Hrej eq_refl) as [i Hi]. rewrite Hno in Hi.
      discriminate.
Qed.

(** C1 on the sample list: of the two completed items, the remove call
    of the later one settles first and succeeds, that of the earlier one
    fails. *)
Lemma handleDeleteAll_partial_failure_witness :
  let st' :=
    mkApp [Sample.milk; Sample.eggs; Sample.bread] Filter.All [] None false
          false None (Some (Js.lit "Unable to delete a todo")) in
  let sched :=
    [(3%nat, Fulfilled ()); (1%nat, Rejected Sample.networkError)] in
  todosFromServer st'
  = keepAt (λ i todo, negb (completed todo && negb (failed sched i)))
           (todosFromServer Sample.mixed)
  ∧ (Sample.tea ∉ todosFromServer st')
  ∧ (Sample.eggs ∈ todosFromServer st').
Proof.
  intros st' sched.
  destruct (handleDeleteAll_partial_failure Sample.mixed st' sched
              [DeleteTodo 3; DeleteTodo 4])
    as (_ & _ & Hkept & Hgone & Hstays & _).
  - compute_done.
  - reflexivity.
  - split; [exact Hkept|]. split.
    + apply (Hgone 3%nat); reflexivity.
    + apply (Hstays 1%nat); reflexivity.
Defined.

(** ** Toggle all *)

Lemma filter_length_le {A} (f : A → bool) (l : list A) :
  (length (List.filter f l) ≤ length l)%nat.
Proof.
  induction l as [|a l IH]; simpl; [lia|]. destruct (f a); simpl; lia.
Qed.

(** [allCompleted] compares two lengths; it holds exactly when every item
    is completed. *)
Lemma allCompleted_forallb (st : AppState) :
  allCompleted st = forallb (λ todo, completed todo) (todosFromServer st).
Proof.
  unfold allCompleted, completedTodos.
  induction (todosFromServer st) as [|todo l IH]; simpl; [reflexivity|].
  destruct (completed todo); simpl; [exact IH|].
  apply Nat.eqb_neq.
  pose proof (filter_length_le (λ todo, completed todo) l). lia.
Qed.

Lemma allCompleted_all (st : AppState) :
  allCompleted st = true ↔
  ∀ todo, todo ∈ todosFromServer st → completed todo = true.
Proof.
  rewrite allCompleted_forallb, forallb_forall.
  split; intros H todo Hin; apply H, list_elem_of_In, Hin.
Qed.

Lemma setChangeAll_same (st : AppState) : setChangeAll (changeAll st) st = st.
Proof. destruct st; reflexivity. Qed.

Lemma setUpdatedTodos_same (fr : Frame) :
  setUpdatedTodos (updatedTodos fr) fr = fr.
Proof. destruct fr; reflexivity. Qed.

Lemma withCompleted_same (todo : Todo) :
  withCompleted (completed todo) todo = todo.
Proof. destruct todo; reflexivity. Qed.

(** The callbacks start without touching the working copy or any cell
    but the progress marker, and they issue the calls of the direction
    taken. *)
Lemma spawn_toggleAll (allCompleted_ : bool) (l : list Todo) :
  (allCompleted_ = true → ∀ todo, todo ∈ l → completed todo = true) →
  ∀ fr,
  let out := spawn (toggleAllCallback allCompleted_) l fr in
  updatedTodos out.1 = updatedTodos fr
  ∧ (∃ c, app out.1 = setChangeAll c (app fr))
  ∧ Forall2 follows out.2 (toggleAllPlan allCompleted_ l)
  ∧ omap pending out.2 = toggleAllRequests allCompleted_ l.
Proof.
  induction l as [|todo l IH]; intros Hall fr; simpl.
  - repeat split.
    + exists (changeAll (app fr)). symmetry. apply setChangeAll_same.
    + constructor.
    + destruct allCompleted_; reflexivity.
  - assert (Hrest : allCompleted_ = true → ∀ t, t ∈ l → completed t = true).
    { intros Ht t Hin. apply (Hall Ht). right. exact Hin. }
    specialize (IH Hrest).
    unfold toggleAllCallback, toggleAllSecond, toggleAllRequests.
    destruct allCompleted_.
    + pose proof (Hall eq_refl todo ltac:(left)) as Hc.
      specialize (IH (onApp (setChangeAll (Some ToggleStatus.completed)) fr)).
      destruct (spawn _ l _) as [fr' ks]. simpl in *.
      destruct IH as (Hu & [c Hc'] & Hplan & Hreq).
      split; [exact Hu|]. split; [exists c; exact Hc'|]. split.
      * constructor; [|exact Hplan]. intros [[]|e] s; [|reflexivity].
        rewrite Hc. reflexivity.
      * f_equal. exact Hreq.
    + destruct (completed todo) eqn:Hc; simpl.
      * unfold toggleAllApply. simpl. rewrite List.map_id.
        rewrite setUpdatedTodos_same. specialize (IH fr).
        destruct (spawn _ l fr) as [fr' ks]. simpl in *.
        destruct IH as (Hu & Hc' & Hplan & Hreq).
        split; [exact Hu|]. split; [exact Hc'|]. split.
        -- constructor; [exact I|exact Hplan].
        -- rewrite Hc. exact Hreq.
      * specialize (IH (onApp (setChangeAll (Some ToggleStatus.active)) fr)).
        destruct (spawn _ l _) as [fr' ks]. simpl in *.
        destruct IH as (Hu & [c Hc'] & Hplan & Hreq).
        split; [exact Hu|]. split; [exists c; exact Hc'|]. split.
        -- constructor; [|exact Hplan]. intros [[]|e] s; reflexivity.
        -- rewrite Hc. simpl. f_equal. exact Hreq.
Qed.

Lemma handleToggleAll_begin_follows (st : AppState) :
  let p := handleToggleAll_begin st in
  let l := todosFromServer st in
  updatedTodos (frame p) = l
  ∧ (∃ c, app (frame p) = setChangeAll c st)
  ∧ Forall2 follows (tasks p) (toggleAllPlan (allCompleted st) l)
  ∧ trace p = toggleAllRequests (allCompleted st) l.
Proof.
  intros p l. subst p. unfold handleToggleAll_begin, startAll.
  pose proof (spawn_toggleAll (allCompleted st) l
                (proj1 (allCompleted_all st)) (mkFrame st l)) as H.
  fold l. destruct (spawn _ l _) as [fr ks]. exact H.
Qed.

Lemma waits_toggleAll (b : bool) (l : list Todo) (i : nat) :
  waits (toggleAllPlan b l) i = true ↔
  ∃ todo, l !! i = Some todo ∧ (b = true ∨ completed todo = false).
Proof.
  unfold waits, toggleAllPlan. rewrite list_lookup_fmap.
  destruct (l !! i) as [todo|]; simpl.
  - destruct b; [|destruct (completed todo) eqn:Hc]; split;
      try discriminate; try reflexivity; eauto.
    intros (todo' & [= <-] & [?|?]); congruence.
  - split; [discriminate|]. intros (todo & [=] & _).
Qed.

(** Every call of the plan drives the items towards the same flag. *)
Lemma waits_toggleAll_step (b : bool) (l : list Todo) (i : nat) :
  waits (toggleAllPlan b l) i = true →
  toggleAllPlan b l !! i = Some (Some (toggleAllStep (negb b))).
Proof.
  unfold waits, toggleAllPlan. rewrite list_lookup_fmap.
  destruct (l !! i) as [todo|]; simpl; [|discriminate].
  destruct b; [reflexivity|]. destruct (completed todo); [discriminate|].
  reflexivity.
Qed.

Lemma withCompleted_twice (b : bool) (l : list Todo) :
  List.map (withCompleted b) (List.map (withCompleted b) l)
  = List.map (withCompleted b) l.
Proof. rewrite List.map_map. reflexivity. Qed.

(** The shared state after the settlements of a schedule: as soon as one
    call has succeeded every flag of the working copy is set the same
    way, and once one has failed the error slot holds the message of the
    callback's [catch]. *)
Lemma toggleAll_fold (b : bool) (l : list Todo)
    (sched : list (nat * Settled unit)) :
  ∀ fr,
  Forall (λ ev, waits (toggleAllPlan b l) ev.1 = true) sched →
  foldl (fire (toggleAllPlan b l)) fr sched
  = mkFrame
      (if existsb (λ ev, isRejected ev.2) sched
       then setErrorMessage (Some (Js.lit "Unable to delete a todo")) (app fr)
       else app fr)
      (if existsb (λ ev, isFulfilled ev.2) sched
       then List.map (withCompleted (negb b)) (updatedTodos fr)
       else updatedTodos fr).
Proof.
  induction sched as [|[i r] sched IH]; intros fr Hw.
  - destruct fr; reflexivity.
  - apply Forall_cons in Hw as [Hi Hw].
    simpl. rewrite (IH _ Hw). clear IH.
    unfold fire. simpl in *. rewrite (waits_toggleAll_step b l i Hi).
    destruct r as [[]|e]; simpl.
    + f_equal. destruct (existsb (λ ev, isFulfilled ev.2) sched);
        [apply withCompleted_twice|reflexivity].
    + f_equal. destruct (existsb (λ ev, isRejected ev.2) sched); reflexivity.
Qed.

Lemma forallb_false_lookup {A} (f : A → bool) (l : list A) :
  forallb f l = false → ∃ i a, l !! i = Some a ∧ f a = false.
Proof.
  induction l as [|a l IH]; simpl; [discriminate|].
  destruct (f a) eqn:Hf; simpl.
  - intros H. destruct (IH H) as (i & b & Hb & Hfb).
    exists (Datatypes.S i), b. auto.
  - intros _. exists O, a. auto.
Qed.

(** What a completed toggle-all has gone through, and the state it
    leaves, whatever the results of its calls. *)
Lemma handleToggleAll_settled (st st' : AppState)
    (sched : list (nat * Settled unit)) (reqs : list Request) :
  handleToggleAll st sched = Some (st', reqs) →
  let l := todosFromServer st in
  let plan := toggleAllPlan (allCompleted st) l in
  NoDup sched.*1
  ∧ Forall (λ ev, waits plan ev.1 = true) sched
  ∧ (∀ i, waits plan i = true → i ∈ sched.*1)
  ∧ reqs = toggleAllRequests (allCompleted st) l
  ∧ st' = setChangeAll None
            (setTodosFromServer
               (if existsb (λ ev, isFulfilled ev.2) sched
                then List.map (withCompleted (negb (allCompleted st))) l
                else l)
               (if existsb (λ ev, isRejected ev.2) sched
                then setErrorMessage
                       (Some (Js.lit "Unable to delete a todo")) st
                else st)).
Proof.
  intros Hout l plan. unfold handleToggleAll in Hout.
  destruct (run sched (handleToggleAll_begin st)) as [p|] eqn:Hrun;
    [|discriminate].
  destruct (allSettled p) eqn:Hall; [|discriminate].
  injection Hout as <- <-.
  destruct (handleToggleAll_begin_follows st) as (Hu & [c Hc] & Hplan & Htrace).
  fold l in Hu, Hplan, Htrace. fold plan in Hplan.
  destruct (run_follows _ _ _ _ Hplan Hrun) as (Hnd & Hw & Hframe & Htr & _).
  pose proof (proj1 (allSettled_follows _ _ _ _ Hplan Hrun) Hall) as Hcov.
  subst plan. rewrite (toggleAll_fold _ _ _ _ Hw) in Hframe.
  repeat split; try assumption; [congruence|].
  unfold handleToggleAll_end. rewrite Hframe. simpl. rewrite Hu, Hc.
  destruct (existsb (λ ev, isRejected ev.2) sched); reflexivity.
Qed.

(** A toggle-all that made no call at all had nothing to change. *)
Lemma toggleAll_nothing_to_do (st : AppState) :
  let l := todosFromServer st in
  (∀ i, waits (toggleAllPlan (allCompleted st) l) i = true → i ∈ @nil nat) →
  List.map (withCompleted (negb (allCompleted st))) l = l.
Proof.
  intros l Hcov. rewrite allCompleted_forallb in Hcov |- *.
  fold l in Hcov |- *.
  destruct (forallb (λ todo, completed todo) l) eqn:Hfa.
  - destruct (l !! O) as [todo|] eqn:Hl0.
    + assert (Hw0 : waits (toggleAllPlan true l) O = true).
      { apply waits_toggleAll. exists todo. auto. }
      apply Hcov in Hw0. inversion Hw0.
    + apply lookup_ge_None in Hl0.
      rewrite (nil_length_inv l); [reflexivity|lia].
  - destruct (forallb_false_lookup _ _ Hfa) as (i & todo & Hl & Hc').
    assert (Hwi : waits (toggleAllPlan false l) i = true).
    { apply waits_toggleAll. exists todo. auto. }
    apply Hcov in Hwi. inversion Hwi.
Qed.

(** The state a completed toggle-all leaves when all its calls
    succeeded. *)
Lemma handleToggleAll_succeeded (st st' : AppState)
    (sched : list (nat * Settled unit)) (reqs : list Request) :
  Forall (λ ev, isFulfilled ev.2 = true) sched →
  handleToggleAll st sched = Some (st', reqs) →
  let l := todosFromServer st in
  reqs = toggleAllRequests (allCompleted st) l
  ∧ st' = setChangeAll None
            (setTodosFromServer
               (List.map (withCompleted (negb (allCompleted st))) l) st).
Proof.
  intros Hok Hout l.
  destruct (handleToggleAll_settled _ _ _ _ Hout)
    as (_ & _ & Hcov & Hreqs & Hst).
  fold l in Hcov, Hreqs, Hst. split; [exact Hreqs|]. rewrite Hst.
  destruct sched as [|[i r] sched].
  - subst l. rewrite (toggleAll_nothing_to_do st Hcov). reflexivity.
  - apply Forall_cons in Hok as [Hr Hok]. simpl in Hr.
    assert (Hrej : existsb (λ ev : nat * Settled unit, isRejected ev.2)
                           sched = false).
    { clear -Hok. induction Hok as [|ev sched Hev _ IH]; [reflexivity|].
      simpl. unfold isRejected at 1. rewrite Hev. exact IH. }
    simpl. unfold isRejected at 1. rewrite Hr, Hrej. reflexivity.
Qed.

(** Every schedule that settles each issued update call once, and
    nothing else, completes toggle-all. *)
Lemma handleToggleAll_defined (st : AppState)
    (sched : list (nat * Settled unit)) :
  let plan := toggleAllPlan (allCompleted st) (todosFromServer st) in
  NoDup sched.*1 →
  Forall (λ ev, waits plan ev.1 = true) sched →
  (∀ i, waits plan i = true → i ∈ sched.*1) →
  ∃ out, handleToggleAll st sched = Some out.
Proof.
  intros plan Hnd Hw Hcov. unfold handleToggleAll.
  destruct (handleToggleAll_begin_follows st) as (_ & _ & Hplan & _).
  destruct (run_defined sched _ _ Hplan Hnd Hw) as [p Hrun]. rewrite Hrun.
  rewrite (proj2 (allSettled_follows _ _ _ _ Hplan Hrun) Hcov). eauto.
Qed.

(** The fields of the todos once every flag has been set to [b]. *)
Lemma withCompleted_fields (b : bool) (l : list Todo) :
  id <$> List.map (withCompleted b) l = id <$> l
  ∧ userId <$> List.map (withCompleted b) l = userId <$> l
  ∧ title <$> List.map (withCompleted b) l = title <$> l
  ∧ completed <$> List.map (withCompleted b) l = (λ _, b) <$> l.
Proof.
  induction l as [|todo l (Hid & Huser & Htitle & Hflag)]; simpl.
  - repeat split.
  - repeat split; f_equal; assumption.
Qed.

(** C3. Toggle-all takes its direction from the list it is invoked on,
    once: [allCompleted] of that state, which holds exactly when every
    item is completed. If it holds, one update call to not-completed
    goes out per item and, the calls having succeeded, every item is
    not-completed. Otherwise update calls to completed go out for the
    not-completed items only and, the calls having succeeded, these
    items are completed while the items that were completed are as they
    were. Field by field: the ids, owners and titles of the list are the
    old ones, and every flag is the opposite of [allCompleted] at
    invocation. Nothing else of the state has changed. *)
Theorem handleToggleAll_direction (st st' : AppState)
    (sched : list (nat * Settled unit)) (reqs : list Request) :
  Forall (λ ev, isFulfilled ev.2 = true) sched →
  handleToggleAll st sched = Some (st', reqs) →
  let l := todosFromServer st in
  (allCompleted st = true ↔ ∀ todo, todo ∈ l → completed todo = true)
  ∧ (if allCompleted st then
       reqs = List.map (λ todo,
                  PatchTodo (id todo) (mkPartial (Some false) None)) l
       ∧ todosFromServer st' = List.map (withCompleted false) l
     else
       reqs = List.map (λ todo,
                  PatchTodo (id todo) (mkPartial (Some true) None))
                (List.filter (λ todo, negb (completed todo)) l)
       ∧ todosFromServer st'
         = List.map (λ todo,
               if completed todo then todo else withCompleted true todo) l)
  ∧ st' = setChangeAll None (setTodosFromServer (todosFromServer st') st)
  ∧ id <$> todosFromServer st' = id <$> l
  ∧ userId <$> todosFromServer st' = userId <$> l
  ∧ title <$> todosFromServer st' = title <$> l
  ∧ completed <$> todosFromServer st'
    = (λ _, negb (allCompleted st)) <$> l
  ∧ (∀ todo', todo' ∈ todosFromServer st' →
       completed todo' = negb (allCompleted st))
  ∧ (allCompleted st = false →
     ∀ i todo, l !! i = Some todo → completed todo = true →
               todosFromServer st' !! i = Some todo).
Proof.
  intros Hok Hout l.
  destruct (handleToggleAll_succeeded _ _ _ _ Hok Hout) as [Hreqs Hst].
  fold l in Hreqs, Hst.
  assert (Hl : todosFromServer st'
               = List.map (withCompleted (negb (allCompleted st))) l)
    by (rewrite Hst; reflexivity).
  destruct (withCompleted_fields (negb (allCompleted st)) l)
    as (Hid & Huser & Htitle & Hflag).
  split; [apply allCompleted_all|]. split; [|split].
  - rewrite Hreqs, Hst. unfold toggleAllRequests.
    destruct (allCompleted st); simpl; (split; [reflexivity|]);
      [reflexivity|].
    apply List.map_ext. intros todo.
    destruct (completed todo) eqn:Hc; [|reflexivity].
    rewrite <- Hc. apply withCompleted_same.
  - rewrite Hst. reflexivity.
  - rewrite Hl. split; [exact Hid|]. split; [exact Huser|].
    split; [exact Htitle|]. split; [exact Hflag|]. split.
    + intros todo' Hin.
      apply list_elem_of_In, in_map_iff in Hin as (todo & <- & _).
      reflexivity.
    + intros Hmixed i todo Hi Hc.
      change (List.map ?g ?k) with (g <$> k).
      rewrite list_lookup_fmap, Hi, Hmixed. simpl.
      rewrite <- Hc. f_equal. apply withCompleted_same.
Qed.

(** C3 on the mixed sample list, the call of the later active item
    settling first, and on the list of completed items: the flags of the
    new lists. *)
Lemma handleToggleAll_direction_witness :
  completed
    <$> [mkTodo 1 7 (Js.lit "buy milk") true; Sample.eggs;
         mkTodo 2 7 (Js.lit "buy bread") true; Sample.tea]
  = (λ _, negb (allCompleted Sample.mixed)) <$> todosFromServer Sample.mixed
  ∧ completed
      <$> [mkTodo 3 7 (Js.lit "buy eggs") false;
           mkTodo 4 7 (Js.lit "buy tea") false]
    = (λ _, negb (allCompleted Sample.allDone))
        <$> todosFromServer Sample.allDone.
Proof.
  split.
  - destruct (handleToggleAll_direction Sample.mixed
      (mkApp [mkTodo 1 7 (Js.lit "buy milk") true; Sample.eggs;
              mkTodo 2 7 (Js.lit "buy bread") true; Sample.tea]
             Filter.All [] None false false None None)
      [(2%nat, Fulfilled ()); (0%nat, Fulfilled ())]
      [PatchTodo 1 (mkPartial (Some true) None);
       PatchTodo 2 (mkPartial (Some true) None)])
      as (_ & _ & _ & _ & _ & _ & Hflags & _).
    + repeat constructor.
    + reflexivity.
    + exact Hflags.
  - destruct (handleToggleAll_direction Sample.allDone
      (mkApp [mkTodo 3 7 (Js.lit "buy eggs") false;
              mkTodo 4 7 (Js.lit "buy tea") false]
             Filter.All [] None false false None None)
      [(0%nat, Fulfilled ()); (1%nat, Fulfilled ())]
      [PatchTodo 3 (mkPartial (Some false) None);
       PatchTodo 4 (mkPartial (Some false) None)])
      as (_ & _ & _ & _ & _ & _ & Hflags & _).
    + repeat constructor.
    + reflexivity.
    + exact Hflags.
Defined.

(** ** Every assignment of results to the calls can happen *)

Section InOrder.

Context {S R : Type}.
Variables (res : nat → Settled R) (plan : Plan S R).

Lemma inOrder_fst :
  (inOrder res plan).*1 = List.filter (waits plan) (seq 0 (length plan)).
Proof.
  unfold inOrder. induction (List.filter _ _) as [|i l IH]; simpl;
    [reflexivity|]. f_equal. exact IH.
Qed.

Lemma inOrder_once : NoDup (inOrder res plan).*1.
Proof.
  rewrite inOrder_fst.
  apply NoDup_ListNoDup, List.NoDup_filter, List.seq_NoDup.
Qed.

Lemma inOrder_waits :
  Forall (λ ev, waits plan ev.1 = true) (inOrder res plan).
Proof.
  apply Forall_forall. intros ev Hin.
  assert (Hfst : ev.1 ∈ (inOrder res plan).*1)
    by (apply list_elem_of_fmap; eauto).
  rewrite inOrder_fst, list_elem_of_In, filter_In in Hfst. apply Hfst.
Qed.

Lemma inOrder_covers i :
  waits plan i = true → i ∈ (inOrder res plan).*1.
Proof.
  intros Hw. rewrite inOrder_fst, list_elem_of_In, filter_In.
  split; [|exact Hw]. apply in_seq.
  apply waits_lookup in Hw as [f Hf]. apply lookup_lt_Some in Hf. lia.
Qed.

Lemma inOrder_outcome i :
  waits plan i = true → outcome (inOrder res plan) i = Some (res i).
Proof.
  intros Hw. apply elem_outcome; [apply inOrder_once|].
  pose proof (inOrder_covers i Hw) as Hin.
  rewrite inOrder_fst in Hin. unfold inOrder.
  apply list_elem_of_In, in_map_iff. exists i. split; [reflexivity|].
  apply list_elem_of_In, Hin.
Qed.

End InOrder.

(** Whatever results the remove calls are to have, item by item, there
    is a schedule under which clear-completed completes with them. *)
Lemma handleDeleteAll_any_results (st : AppState) (res : nat → Settled unit) :
  ∃ sched out,
    handleDeleteAll st sched = Some out
    ∧ ∀ i todo, todosFromServer st !! i = Some todo →
                completed todo = true → outcome sched i = Some (res i).
Proof.
  set (plan := deleteAllPlan (todosFromServer st)).
  destruct (handleDeleteAll_defined st (inOrder res plan)
              (inOrder_once res plan) (inOrder_waits res plan)
              (inOrder_covers res plan)) as [out Hout].
  exists (inOrder res plan), out. split; [exact Hout|].
  intros i todo Hl Hc. apply inOrder_outcome, waits_deleteAll. eauto.
Qed.

(** The same for the update calls of toggle-all. *)
Lemma handleToggleAll_any_results (st : AppState) (res : nat → Settled unit) :
  ∃ sched out,
    handleToggleAll st sched = Some out
    ∧ ∀ i todo, todosFromServer st !! i = Some todo →
                allCompleted st = true ∨ completed todo = false →
                outcome sched i = Some (res i).
Proof.
  set (plan := toggleAllPlan (allCompleted st) (todosFromServer st)).
  destruct (handleToggleAll_defined st (inOrder res plan)
              (inOrder_once res plan) (inOrder_waits res plan)
              (inOrder_covers res plan)) as [out Hout].
  exists (inOrder res plan), out. split; [exact Hout|].
  intros i todo Hl Hc. apply inOrder_outcome, waits_toggleAll. eauto.
Qed.

(** ** The error slot at the start of an operation *)

(** C8, operation by operation. Delete-one, create and clear-completed
    empty the error slot before their remote call goes out (create then
    fills it again when the title is rejected). Load, update-one and
    toggle-all do not write to it before their calls: a message left by
    an earlier failure is still there when the calls go out, and after
    a toggle-all or an update that succeeded. *)
Theorem error_slot_at_start :
  (∀ st tid, errorMessage (handleDeleteTodo tid st).1 = None)
  ∧ (∀ st, errorMessage (handlePostTodo st).1
           = if Js.isEmpty (Js.trim (inputValue st))
             then Some (Js.lit "Title should not be empty") else None)
  ∧ (∀ st, errorMessage (app (frame (handleDeleteAll_begin st))) = None)
  ∧ (∀ st, (loadTodos st).1 = st)
  ∧ (∀ st tid data, (handleChangeTodo tid data st).1 = st)
  ∧ (∀ st, errorMessage (app (frame (handleToggleAll_begin st)))
           = errorMessage st)
  ∧ errorMessage (app (frame (handleToggleAll_begin Sample.staleError)))
    = Some (Js.lit "Unable to add a todo")
  ∧ (errorMessage ∘ fst)
      <$> handleToggleAll Sample.staleError
            [(0%nat, Fulfilled ()); (1%nat, Fulfilled ())]
    = Some (Some (Js.lit "Unable to add a todo"))
  ∧ errorMessage
      (settle (Fulfilled ())
              (handleChangeTodo 1 (ofBoolean true) Sample.staleError)).1
    = Some (Js.lit "Unable to add a todo").
Proof.
  split; [reflexivity|]. split.
  { intros st. unfold handlePostTodo.
    destruct (Js.isEmpty _); reflexivity. }
  split.
  { intros st. destruct (handleDeleteAll_begin_follows st) as (-> & _).
    reflexivity. }
  split; [reflexivity|]. split; [reflexivity|]. split.
  { intros st.
    destruct (handleToggleAll_begin_follows st) as (_ & [c ->] & _).
    reflexivity. }
  repeat split.
Qed.


(** * Further properties of the handlers and views *)

(** ** Derived views *)

Lemma filter_true {A} (l : list A) : List.filter (λ _, true) l = l.
Proof. induction l as [|a l IH]; simpl; congruence. Qed.

Lemma filter_sublist {A} (f : A → bool) (l : list A) :
  List.filter f l `sublist_of` l.
Proof.
  induction l as [|a l IH]; simpl; [constructor|].
  destruct (f a); [apply sublist_skip|apply sublist_cons]; exact IH.
Qed.

Lemma filter_split_length {A} (f : A → bool) (l : list A) :
  (length (List.filter (λ a, negb (f a)) l) + length (List.filter f l)
   = length l)%nat.
Proof.
  induction l as [|a l IH]; simpl; [reflexivity|].
  destruct (f a); simpl; lia.
Qed.

Lemma filter_split_perm {A} (f : A → bool) (l : list A) :
  List.filter (λ a, negb (f a)) l ++ List.filter f l ≡ₚ l.
Proof.
  induction l as [|a l IH]; simpl; [reflexivity|].
  destruct (f a); simpl.
  - rewrite <- Permutation_middle. constructor. exact IH.
  - constructor. exact IH.
Qed.

Lemma filter_nil_forallb {A} (f : A → bool) (l : list A) :
  List.filter (λ a, negb (f a)) l = [] ↔ forallb f l = true.
Proof.
  induction l as [|a l IH]; simpl; [tauto|].
  destruct (f a); simpl; [exact IH|]. split; discriminate.
Qed.

(** X1. The active and the completed view split the list: between them
    they hold every todo exactly once, each keeps the order of the list,
    the counter and the number of completed todos add up to the length
    of the list, and [allCompleted] holds exactly when the active view
    is empty, which it is for the empty list. *)
Theorem views_split (st : AppState) :
  activeTodos st ++ completedTodos st ≡ₚ todosFromServer st
  ∧ activeTodos st `sublist_of` todosFromServer st
  ∧ completedTodos st `sublist_of` todosFromServer st
  ∧ (itemsLeft st + length (completedTodos st)
     = length (todosFromServer st))%nat
  ∧ (allCompleted st = true ↔ activeTodos st = [])
  ∧ (todosFromServer st = [] → allCompleted st = true).
Proof.
  unfold itemsLeft, activeTodos, completedTodos.
  split; [apply (filter_split_perm (λ todo, completed todo))|].
  split; [apply filter_sublist|]. split; [apply filter_sublist|].
  split; [apply (filter_split_length (λ todo, completed todo))|].
  split.
  - rewrite allCompleted_forallb. symmetry.
    apply (filter_nil_forallb (λ todo, completed todo)).
  - intros Hnil. rewrite allCompleted_forallb, Hnil. reflexivity.
Qed.

(** X2. The rendered list by filter: all todos under [All], the active
    view under [Active], the completed view under [Completed]; in every
    case a selection of the list in the order of the list, and the whole
    list again once the filter is back on [All]. *)
Theorem preparedTodos_by_filter (st : AppState) :
  preparedTodos st
  = match filterStatus st with
    | Filter.All => todosFromServer st
    | Filter.Active => activeTodos st
    | Filter.Completed => completedTodos st
    end
  ∧ preparedTodos st `sublist_of` todosFromServer st
  ∧ (∀ todo, todo ∈ preparedTodos st →
       todo ∈ todosFromServer st
       ∧ match filterStatus st with
         | Filter.All => True
         | Filter.Active => completed todo = false
         | Filter.Completed => completed todo = true
         end).
Proof.
  split; [|split].
  - unfold preparedTodos, activeTodos, completedTodos.
    destruct (filterStatus st); [apply filter_true|reflexivity|reflexivity].
  - apply filter_sublist.
  - intros todo Hin. unfold preparedTodos in Hin.
    apply list_elem_of_In, filter_In in Hin as [Hin Hf].
    split; [apply list_elem_of_In, Hin|].
    destruct (filterStatus st); [exact I| |exact Hf].
    apply negb_true_iff, Hf.
Qed.

(** ** Load *)

(** X3. The load at mount, from the initial state: one list call goes
    out. When it succeeds the list, and with the default filter the
    rendered list, is the response as returned, and the error slot is
    empty; when it fails the list stays empty, so neither the toggle-all
    button nor the footer is rendered, and the error slot holds the
    load-failure message. Either way nothing is thrown. In whatever
    state [s] the call settles, the response replaces the whole list of
    [s]. *)
Theorem loadTodos_at_mount :
  pending (loadTodos initialState).2 = Some GetTodos
  ∧ (∀ todos,
       let after := settle (Fulfilled todos) (loadTodos initialState) in
       todosFromServer after.1 = todos
       ∧ preparedTodos after.1 = todos
       ∧ errorMessage after.1 = None
       ∧ after.2 = Finished Normal)
  ∧ (∀ e,
       let after := settle (Rejected e) (loadTodos initialState) in
       todosFromServer after.1 = []
       ∧ listShown after.1 = false
       ∧ errorMessage after.1 = Some (Js.lit "Unable to load todos")
       ∧ after.2 = Finished Normal)
  ∧ (∀ st s todos,
       (settle (Fulfilled todos) (s, (loadTodos st).2)).1
       = setTodosFromServer todos s).
Proof.
  split; [reflexivity|]. split; [|split].
  - intros todos. simpl. repeat split.
    unfold preparedTodos. simpl. apply filter_true.
  - intros e. repeat split.
  - reflexivity.
Qed.

(** ** Trimmed titles *)

Lemma trimStart_head (s : Js.str) (c : N) (t : Js.str) :
  Js.trimStart s = c :: t → Js.isWhiteSpace c = false.
Proof.
  induction s as [|d s IH]; simpl; [discriminate|].
  destruct (Js.isWhiteSpace d) eqn:Hd; [exact IH|].
  intros [= <- _]. exact Hd.
Qed.

Lemma trimStart_split (s : Js.str) :
  ∃ blanks, s = blanks ++ Js.trimStart s
            ∧ forallb Js.isWhiteSpace blanks = true.
Proof.
  induction s as [|d s (blanks & Hs & Hb)]; simpl.
  - exists []. auto.
  - destruct (Js.isWhiteSpace d) eqn:Hd.
    + exists (d :: blanks). simpl. rewrite Hd, Hb. split; [|reflexivity].
      f_equal. exact Hs.
    + exists []. auto.
Qed.

Lemma trimStart_fixed (s : Js.str) :
  (∀ c t, s = c :: t → Js.isWhiteSpace c = false) → Js.trimStart s = s.
Proof.
  destruct s as [|c t]; [reflexivity|]. intros H. simpl.
  rewrite (H c t eq_refl). reflexivity.
Qed.

Lemma trimStart_twice (s : Js.str) :
  Js.trimStart (Js.trimStart s) = Js.trimStart s.
Proof. apply trimStart_fixed. intros c t. apply trimStart_head. Qed.

(** What [trim] returns starts where the text does once its leading
    blanks are gone. *)
Lemma trim_split (s : Js.str) :
  ∃ blanks, Js.trimStart s = Js.trim s ++ blanks
            ∧ forallb Js.isWhiteSpace blanks = true.
Proof.
  unfold Js.trim, Js.trimEnd.
  destruct (trimStart_split (rev (Js.trimStart s))) as (blanks & Hs & Hb).
  exists (rev blanks). split.
  - rewrite <- rev_app_distr, <- Hs, rev_involutive. reflexivity.
  - rewrite forallb_rev. exact Hb.
Qed.

Lemma trim_head (s : Js.str) (c : N) (t : Js.str) :
  Js.trim s = c :: t → Js.isWhiteSpace c = false.
Proof.
  intros Ht. destruct (trim_split s) as (blanks & Hs & _).
  rewrite Ht in Hs. simpl in Hs. apply (trimStart_head s c _ Hs).
Qed.

Lemma trim_last (s : Js.str) (t : Js.str) (c : N) :
  Js.trim s = t ++ [c] → Js.isWhiteSpace c = false.
Proof.
  unfold Js.trim, Js.trimEnd. intros Ht.
  apply (f_equal (@rev N)) in Ht.
  rewrite rev_involutive, rev_app_distr in Ht. simpl in Ht.
  apply (trimStart_head _ _ _ Ht).
Qed.

Lemma trim_twice (s : Js.str) : Js.trim (Js.trim s) = Js.trim s.
Proof.
  assert (Hstart : Js.trimStart (Js.trim s) = Js.trim s).
  { apply trimStart_fixed. intros c t. apply trim_head. }
  unfold Js.trim at 1. rewrite Hstart.
  unfold Js.trim, Js.trimEnd. rewrite rev_involutive, trimStart_twice.
  reflexivity.
Qed.

(** X4. The title that create sends to the store is never blank and is
    in trimmed form: it is the trimmed input, it is not empty, neither
    its first nor its last character is white space, and trimming it
    again changes nothing. *)
Theorem handlePostTodo_sends_trimmed (st : AppState) (req : Request) :
  pending (handlePostTodo st).2 = Some req →
  ∃ sent,
    req = PostTodo sent
    ∧ sent = Js.trim (inputValue st)
    ∧ sent ≠ []
    ∧ Js.trim sent = sent
    ∧ (∀ c t, sent = c :: t → Js.isWhiteSpace c = false)
    ∧ (∀ t c, sent = t ++ [c] → Js.isWhiteSpace c = false).
Proof.
  unfold handlePostTodo.
  destruct (Js.isEmpty (Js.trim (inputValue st))) eqn:He; simpl;
    [discriminate|].
  intros [= <-]. exists (Js.trim (inputValue st)).
  split; [reflexivity|]. split; [reflexivity|].
  split; [apply isEmpty_cons, He|]. split; [apply trim_twice|].
  split; [apply trim_head|apply trim_last].
Qed.

(** X4 on the padded sample input. *)
Lemma handlePostTodo_sends_trimmed_witness :
  ∃ sent,
    PostTodo (Js.lit "buy jam") = PostTodo sent
    ∧ sent = Js.trim (inputValue Sample.paddedInput)
    ∧ sent ≠ []
    ∧ Js.trim sent = sent
    ∧ (∀ c t, sent = c :: t → Js.isWhiteSpace c = false)
    ∧ (∀ t c, sent = t ++ [c] → Js.isWhiteSpace c = false).
Proof.
  apply (handlePostTodo_sends_trimmed Sample.paddedInput).
  reflexivity.
Defined.

(** ** Create: lock and placeholder *)

(** X5. While the create call is in flight the input is locked and the
    placeholder holds the trimmed title, the text of the field being
    left as typed. Once the call has settled, either way, the lock is off
    and the placeholder is gone; the field is emptied when the call
    succeeded and keeps the text as typed when it failed. A blank title
    is turned down without lock or placeholder, and the text stays. The
    filter and the bulk markers are never touched. *)
Theorem handlePostTodo_lifecycle (st : AppState) :
  let start := (handlePostTodo st).1 in
  (Js.trim (inputValue st) ≠ [] →
     lockInput start = true
     ∧ tempTodo start = Some (Js.trim (inputValue st))
     ∧ inputValue start = inputValue st
     ∧ errorMessage start = None
     ∧ (∀ newPost,
          settle (Fulfilled newPost) (handlePostTodo st)
          = (mkApp (todosFromServer st ++ [newPost]) (filterStatus st) []
                   None false (deleteAll st) (changeAll st) None,
             Finished Normal))
     ∧ (∀ e,
          settle (Rejected e) (handlePostTodo st)
          = (mkApp (todosFromServer st) (filterStatus st) (inputValue st)
                   None false (deleteAll st) (changeAll st)
                   (Some (Js.lit "Unable to add a todo")),
             Finished Normal)))
  ∧ (Js.trim (inputValue st) = [] →
     handlePostTodo st
     = (mkApp (todosFromServer st) (filterStatus st) (inputValue st)
              (tempTodo st) (lockInput st) (deleteAll st) (changeAll st)
              (Some (Js.lit "Title should not be empty")),
        Finished Normal)).
Proof.
  intros start; subst start. unfold handlePostTodo.
  destruct (Js.trim (inputValue st)) as [|c s] eqn:Htrim; simpl.
  - split; [congruence|]. reflexivity.
  - split; [intros _|discriminate]. repeat split.
Qed.

(** X5 on the padded sample input, the call failing, and on the blank
    one. *)
Lemma handlePostTodo_lifecycle_witness :
  inputValue
    (settle (Rejected Sample.networkError)
            (handlePostTodo Sample.paddedInput)).1
  = Js.lit "  buy jam "
  ∧ lockInput (handlePostTodo Sample.paddedInput).1 = true
  ∧ lockInput (handlePostTodo Sample.blankInput).1 = false.
Proof.
  destruct (proj1 (handlePostTodo_lifecycle Sample.paddedInput))
    as (Hlock & _ & _ & _ & _ & Hfail); [discriminate|].
  split; [rewrite (Hfail Sample.networkError); reflexivity|].
  split; [exact Hlock|].
  rewrite (proj2 (handlePostTodo_lifecycle Sample.blankInput) eq_refl).
  reflexivity.
Defined.

(** ** Update one: the merge *)

(** The function that update-one maps over the list once its call has
    succeeded keeps every id. *)
Lemma merge_keeps_ids (tid : Z) (updateData : PartialTodo) (l : list Todo) :
  id <$> List.map (λ todo,
             if id todo =? tid then spread todo updateData else todo) l
  = id <$> l.
Proof.
  induction l as [|todo l IH]; simpl; [reflexivity|].
  f_equal; [|exact IH]. destruct (id todo =? tid); reflexivity.
Qed.

Lemma merge_absent (tid : Z) (updateData : PartialTodo) (l : list Todo) :
  tid ∉ id <$> l →
  List.map (λ todo, if id todo =? tid then spread todo updateData else todo) l
  = l.
Proof.
  induction l as [|todo l IH]; simpl; [reflexivity|].
  rewrite not_elem_of_cons. intros [Hne Hnot].
  destruct (Z.eqb_spec (id todo) tid) as [Heq|_]; [congruence|].
  rewrite IH; auto.
Qed.

(** X6. Update-one, its call having succeeded, in whatever state [s] the
    call settles: the list of [s] keeps its length, its order and its
    ids; an entry with another id is untouched; an entry with the id
    gets the new flag and keeps its title (a toggle), or gets the
    trimmed title and keeps its flag (a title edit), its owner kept in
    both cases. An id that is not in the list changes nothing. No other
    cell of the state is written. *)
Theorem handleChangeTodo_merges (st s : AppState) (tid : Z)
    (data : ChangeData) :
  let after := settle (Fulfilled ()) (s, (handleChangeTodo tid data st).2) in
  let new := todosFromServer after.1 in
  after.2 = Finished Normal
  ∧ after.1 = setTodosFromServer new s
  ∧ id <$> new = id <$> todosFromServer s
  ∧ length new = length (todosFromServer s)
  ∧ (∀ i todo, todosFromServer s !! i = Some todo →
       ∃ todo',
         new !! i = Some todo'
         ∧ id todo' = id todo ∧ userId todo' = userId todo
         ∧ (id todo ≠ tid → todo' = todo)
         ∧ (id todo = tid →
              match data with
              | ofBoolean b =>
                  completed todo' = b ∧ title todo' = title todo
              | ofString t =>
                  title todo' = Js.trim t ∧ completed todo' = completed todo
              end))
  ∧ (tid ∉ id <$> todosFromServer s → new = todosFromServer s).
Proof.
  intros after new. subst new after. simpl.
  split; [reflexivity|]. split; [reflexivity|].
  split; [apply merge_keeps_ids|]. split; [apply length_map|]. split.
  - intros i todo Hl.
    change (List.map ?f ?l) with (f <$> l).
    rewrite list_lookup_fmap, Hl. simpl.
    destruct (Z.eqb_spec (id todo) tid) as [Heq|Hne].
    + exists (spread todo (updateDataOf data)).
      split; [reflexivity|]. split; [reflexivity|]. split; [reflexivity|].
      split; [congruence|]. intros _. destruct data; simpl; auto.
    + exists todo. repeat split; congruence.
  - apply merge_absent.
Qed.



(** ** Delete one: the lock, and deletes in flight together *)

(** X8. Delete-one, for any id, in the list or not: the remove call
    goes out with the input locked and the error slot emptied, and once
    the call has settled, whichever way and in whatever state, the input
    is unlocked. When no entry has the id, the remove call goes out all
    the same and its success leaves the list as it was, the error slot
    empty. *)
Theorem handleDeleteTodo_lock (st : AppState) (tid : Z) :
  pending (handleDeleteTodo tid st).2 = Some (DeleteTodo tid)
  ∧ lockInput (handleDeleteTodo tid st).1 = true
  ∧ errorMessage (handleDeleteTodo tid st).1 = None
  ∧ (∀ r, lockInput (settle r (handleDeleteTodo tid st)).1 = false)
  ∧ (∀ r s, lockInput (settle r (s, (handleDeleteTodo tid st).2)).1 = false)
  ∧ (tid ∉ id <$> todosFromServer st →
     todosFromServer (settle (Fulfilled ()) (handleDeleteTodo tid st)).1
     = todosFromServer st
     ∧ errorMessage (settle (Fulfilled ()) (handleDeleteTodo tid st)).1
       = None).
Proof.
  split; [reflexivity|]. split; [reflexivity|]. split; [reflexivity|].
  split; [intros [[]|e]; reflexivity|].
  split; [intros [[]|e] s; reflexivity|].
  intros Habsent. simpl. rewrite (filter_id_absent tid _ Habsent). auto.
Qed.

(** X8 on the sample list: the lock for an id of the list, and the list
    after the delete of an id no entry has. *)
Lemma handleDeleteTodo_lock_witness :
  lockInput (handleDeleteTodo 1 Sample.twoActive).1 = true
  ∧ (∀ r, lockInput (settle r (handleDeleteTodo 1 Sample.twoActive)).1
          = false)
  ∧ todosFromServer
      (settle (Fulfilled ()) (handleDeleteTodo 9 Sample.twoActive)).1
    = todosFromServer Sample.twoActive.
Proof.
  destruct (handleDeleteTodo_lock Sample.twoActive 1)
    as (_ & Hlock & _ & Hunlock & _).
  destruct (handleDeleteTodo_lock Sample.twoActive 9)
    as (_ & _ & _ & _ & _ & Habsent).
  split; [exact Hlock|]. split; [exact Hunlock|].
  apply Habsent. compute_done.
Defined.

(** X9. Delete-one writes the list it was invoked on, less the id, over
    whatever the list is when its call settles. So of two delete-ones in
    flight together whose calls both succeed, the one that settles last
    decides: the list is the list at invocation less its id alone, and
    the entry of the other id, though removed from the store, is in the
    list again. A todo appended by a create that settled in between is
    dropped from the list likewise. *)
Theorem handleDeleteTodo_last_wins (st : AppState) (a b : Z) (todo : Todo) :
  todo ∈ todosFromServer st → id todo = a → a ≠ b →
  let first := handleDeleteTodo a st in
  let second := handleDeleteTodo b first.1 in
  let afterFirst := (settle (Fulfilled ()) (second.1, first.2)).1 in
  let afterBoth := (settle (Fulfilled ()) (afterFirst, second.2)).1 in
  (todo ∉ todosFromServer afterFirst)
  ∧ todosFromServer afterBoth
    = List.filter (λ todoItem, negb (id todoItem =? b)) (todosFromServer st)
  ∧ todo ∈ todosFromServer afterBoth
  ∧ (∀ s, todosFromServer (settle (Fulfilled ()) (s, first.2)).1
          = List.filter (λ todoItem, negb (id todoItem =? a))
                        (todosFromServer st)).
Proof.
  intros Hin Hid Hne first second afterFirst afterBoth.
  subst afterBoth afterFirst second first. simpl.
  split; [|split; [reflexivity|split; [|reflexivity]]].
  - rewrite list_elem_of_In, filter_In. intros [_ Hkeep].
    rewrite Hid, Z.eqb_refl in Hkeep. discriminate.
  - rewrite list_elem_of_In, filter_In. split; [apply list_elem_of_In, Hin|].
    apply negb_true_iff, Z.eqb_neq. congruence.
Qed.

(** X9 on the sample list: the first item is deleted, then the second,
    and the first is back. *)
Lemma handleDeleteTodo_last_wins_witness :
  let first := handleDeleteTodo 1 Sample.twoActive in
  let second := handleDeleteTodo 2 first.1 in
  let afterFirst := (settle (Fulfilled ()) (second.1, first.2)).1 in
  let afterBoth := (settle (Fulfilled ()) (afterFirst, second.2)).1 in
  (Sample.milk ∉ todosFromServer afterFirst)
  ∧ todosFromServer afterBoth
    = List.filter (λ todoItem, negb (id todoItem =? 2))
                  (todosFromServer Sample.twoActive)
  ∧ Sample.milk ∈ todosFromServer afterBoth
  ∧ (∀ s, todosFromServer (settle (Fulfilled ()) (s, first.2)).1
          = List.filter (λ todoItem, negb (id todoItem =? 1))
                        (todosFromServer Sample.twoActive)).
Proof.
  apply (handleDeleteTodo_last_wins Sample.twoActive 1 2 Sample.milk).
  - simpl. left.
  - reflexivity.
  - discriminate.
Defined.

(** ** Clear completed: the whole state *)

(** The state a completed clear-completed leaves, cell by cell. *)
Lemma handleDeleteAll_state (st st' : AppState)
    (sched : list (nat * Settled unit)) (reqs : list Request) :
  handleDeleteAll st sched = Some (st', reqs) →
  st' = mkApp
          (List.filter
             (λ todo, negb (removedBy (todosFromServer st) sched todo))
             (todosFromServer st))
          (filterStatus st) (inputValue st) (tempTodo st) (lockInput st)
          false (changeAll st)
          (if existsb (λ ev, isRejected ev.2) sched
           then Some (Js.lit "Unable to delete a todo") else None).
Proof.
  intros Hout. unfold handleDeleteAll in Hout.
  destruct (run sched (handleDeleteAll_begin st)) as [p|] eqn:Hrun;
    [|discriminate].
  destruct (allSettled p) eqn:Hall; [|discriminate].
  injection Hout as <- <-.
  destruct (handleDeleteAll_begin_follows st) as (Hfr & Hplan & _).
  destruct (run_follows _ _ _ _ Hplan Hrun) as (_ & Hw & Hframe & _ & _).
  rewrite Hfr, (deleteAll_fold _ _ _ Hw) in Hframe.
  unfold handleDeleteAll_end. rewrite Hframe. simpl.
  destruct (existsb _ sched); reflexivity.
Qed.

Lemma nothing_waits_deleteAll (st : AppState) (i : nat) :
  completedTodos st = [] →
  waits (deleteAllPlan (todosFromServer st)) i = false.
Proof.
  intros Hnone. destruct (waits _ i) eqn:Hw; [|reflexivity].
  apply waits_deleteAll in Hw as (todo & Hl & Hc).
  assert (Hin : In todo (completedTodos st)).
  { apply filter_In. split; [|exact Hc].
    apply list_elem_of_In, (list_elem_of_lookup_2 _ i), Hl. }
  rewrite Hnone in Hin. destruct Hin.
Qed.

(** X10. Clear-completed on a list without completed todos, the empty
    list included: no remove call goes out, there is nothing to wait
    for, and the list and all cells are as they were, except that the
    error slot has been emptied and the bulk marker is off. *)
Theorem handleDeleteAll_nothing_completed (st : AppState) :
  completedTodos st = [] →
  handleDeleteAll st []
  = Some (mkApp (todosFromServer st) (filterStatus st) (inputValue st)
                (tempTodo st) (lockInput st) false (changeAll st) None,
          [])
  ∧ (∀ ev sched, handleDeleteAll st (ev :: sched) = None).
Proof.
  intros Hnone. split.
  - destruct (handleDeleteAll_defined st []) as [[st' reqs] Hout].
    + constructor.
    + constructor.
    + intros i Hw. rewrite (nothing_waits_deleteAll st i Hnone) in Hw.
      discriminate.
    + rewrite Hout. f_equal.
      destruct (handleDeleteAll_settled _ _ _ _ Hout)
        as (_ & _ & _ & Hreqs & _).
      rewrite (handleDeleteAll_state _ _ _ _ Hout), Hreqs, Hnone. simpl.
      rewrite filter_true. reflexivity.
  - intros ev sched.
    destruct (handleDeleteAll st (ev :: sched)) as [[st' reqs]|] eqn:Hout;
      [|reflexivity].
    destruct (handleDeleteAll_settled _ _ _ _ Hout) as (_ & Hw & _).
    apply Forall_cons in Hw as [Hev _].
    rewrite (nothing_waits_deleteAll st _ Hnone) in Hev. discriminate.
Qed.

(** X10 on the sample list of two active todos, a stale message in the
    error slot. *)
Lemma handleDeleteAll_nothing_completed_witness :
  handleDeleteAll Sample.staleError []
  = Some (mkApp [Sample.milk; Sample.bread] Filter.All [] None false false
                None None, [])
  ∧ (∀ ev sched, handleDeleteAll Sample.staleError (ev :: sched) = None).
Proof.
  apply (handleDeleteAll_nothing_completed Sample.staleError). reflexivity.
Defined.

(** X11. Clear-completed, under any schedule and for any list, unique
    ids or not: the new list is a selection of the old one in the old
    order, so nothing is added, changed or moved; as many remove calls
    went out as there were completed todos; the bulk marker is off
    again; the error slot is empty or holds the delete-failure message;
    and the filter, the input text, the placeholder, the input lock and
    the toggle marker are as they were. *)
Theorem handleDeleteAll_selects (st st' : AppState)
    (sched : list (nat * Settled unit)) (reqs : list Request) :
  handleDeleteAll st sched = Some (st', reqs) →
  todosFromServer st' `sublist_of` todosFromServer st
  ∧ length reqs = length (completedTodos st)
  ∧ deleteAll st' = false
  ∧ (errorMessage st' = None
     ∨ errorMessage st' = Some (Js.lit "Unable to delete a todo"))
  ∧ filterStatus st' = filterStatus st
  ∧ inputValue st' = inputValue st
  ∧ tempTodo st' = tempTodo st
  ∧ lockInput st' = lockInput st
  ∧ changeAll st' = changeAll st.
Proof.
  intros Hout.
  destruct (handleDeleteAll_settled _ _ _ _ Hout) as (_ & _ & _ & Hreqs & _).
  rewrite (handleDeleteAll_state _ _ _ _ Hout), Hreqs. simpl.
  split; [apply filter_sublist|]. split; [apply length_fmap|].
  split; [reflexivity|]. split; [|repeat split].
  destruct (existsb _ sched); auto.
Qed.

(** X11 on the mixed sample list, one remove call failing. *)
Lemma handleDeleteAll_selects_witness :
  [Sample.milk; Sample.eggs; Sample.bread]
    `sublist_of` todosFromServer Sample.mixed.
Proof.
  refine (proj1 (handleDeleteAll_selects Sample.mixed
    (mkApp [Sample.milk; Sample.eggs; Sample.bread] Filter.All [] None false
           false None (Some (Js.lit "Unable to delete a todo")))
    [(3%nat, Fulfilled ()); (1%nat, Rejected Sample.networkError)]
    [DeleteTodo 3; DeleteTodo 4] _)).
  reflexivity.
Defined.

Lemma filter_none {A} (f : A → bool) (l : list A) :
  List.filter f (List.filter (λ a, negb (f a)) l) = [].
Proof.
  induction l as [|a l IH]; simpl; [reflexivity|].
  destruct (f a) eqn:Hf; simpl; [exact IH|]. rewrite Hf. exact IH.
Qed.

Lemma nothing_failed (sched : list (nat * Settled unit)) (i : nat) :
  Forall (λ ev, isFulfilled ev.2 = true) sched → failed sched i = false.
Proof.
  intros Hok. destruct (failed sched i) eqn:Hf; [|reflexivity].
  apply failed_elem in Hf as (e & He). apply outcome_elem in He.
  rewrite Forall_forall in Hok. apply Hok in He. discriminate.
Qed.

(** X12. Clear-completed on a list with unique ids, all its remove calls
    having succeeded: what is left is the active view, todo for todo and
    in order; no completed todo is left, so the clear-completed button
    is disabled; the counter shows what it showed; the error slot is
    empty. *)
Theorem handleDeleteAll_all_succeeded (st st' : AppState)
    (sched : list (nat * Settled unit)) (reqs : list Request) :
  NoDup (id <$> todosFromServer st) →
  Forall (λ ev, isFulfilled ev.2 = true) sched →
  handleDeleteAll st sched = Some (st', reqs) →
  todosFromServer st' = activeTodos st
  ∧ completedTodos st' = []
  ∧ clearCompletedDisabled st' = true
  ∧ itemsLeft st' = itemsLeft st
  ∧ errorMessage st' = None.
Proof.
  intros Hids Hok Hout.
  destruct (handleDeleteAll_settled _ _ _ _ Hout)
    as (Hnd & Hw & Hcov & _ & Htodos & Herr & _).
  assert (Hleft : todosFromServer st' = activeTodos st).
  { rewrite Htodos, (deleteAll_kept _ _ Hids Hnd Hw Hcov).
    apply keepAt_filter. intros i todo _.
    rewrite (nothing_failed sched i Hok), andb_true_r. reflexivity. }
  assert (Hnone : completedTodos st' = []).
  { unfold completedTodos. rewrite Hleft. unfold activeTodos.
    apply (filter_none (λ todo, completed todo)). }
  split; [exact Hleft|]. split; [exact Hnone|].
  split; [unfold clearCompletedDisabled; rewrite Hnone; reflexivity|].
  split.
  - unfold itemsLeft, activeTodos at 1. rewrite Hleft. unfold activeTodos.
    rewrite filter_filter. f_equal. apply List.filter_ext. intros todo.
    apply andb_diag.
  - rewrite Herr.
    destruct (existsb (λ ev : nat * Settled unit, isRejected ev.2) sched)
      eqn:Hex; [|reflexivity].
    apply existsb_exists in Hex as (ev & Hin & Hrej).
    rewrite Forall_forall in Hok. apply list_elem_of_In, Hok in Hin.
    unfold isRejected in Hrej. rewrite Hin in Hrej. discriminate.
Qed.

(** X12 on the mixed sample list. *)
Lemma handleDeleteAll_all_succeeded_witness :
  todosFromServer
    (mkApp [Sample.milk; Sample.bread] Filter.All [] None false false None
           None)
  = activeTodos Sample.mixed.
Proof.
  refine (proj1 (handleDeleteAll_all_succeeded Sample.mixed _
    [(3%nat, Fulfilled ()); (1%nat, Fulfilled ())]
    [DeleteTodo 3; DeleteTodo 4] _ _ _)).
  - compute_done.
  - repeat constructor.
  - reflexivity.
Defined.

(** ** Toggle all: every outcome, twice in a row, and the empty list *)

(** X13. Toggle-all under any schedule, whatever the results of its
    calls. The list changes all at once or not at all: if at least one
    call succeeded every todo has the flag of the direction taken, the
    opposite of [allCompleted] at invocation, and if none did every flag
    and the list are as they were. Ids, titles and owners are never
    changed. The error slot holds the message of the callback's [catch]
    if at least one call failed and is as it was otherwise; the toggle
    marker is off; no other cell is written. *)
Theorem handleToggleAll_all_or_nothing (st st' : AppState)
    (sched : list (nat * Settled unit)) (reqs : list Request) :
  handleToggleAll st sched = Some (st', reqs) →
  let l := todosFromServer st in
  todosFromServer st'
  = (if existsb (λ ev, isFulfilled ev.2) sched
     then List.map (withCompleted (negb (allCompleted st))) l
     else l)
  ∧ id <$> todosFromServer st' = id <$> l
  ∧ title <$> todosFromServer st' = title <$> l
  ∧ userId <$> todosFromServer st' = userId <$> l
  ∧ completed <$> todosFromServer st'
    = (if existsb (λ ev, isFulfilled ev.2) sched
       then (λ _, negb (allCompleted st)) <$> l
       else completed <$> l)
  ∧ (existsb (λ ev, isFulfilled ev.2) sched = true →
     ∀ todo', todo' ∈ todosFromServer st' →
              completed todo' = negb (allCompleted st))
  ∧ errorMessage st'
    = (if existsb (λ ev, isRejected ev.2) sched
       then Some (Js.lit "Unable to delete a todo")
       else errorMessage st)
  ∧ changeAll st' = None
  ∧ filterStatus st' = filterStatus st
  ∧ inputValue st' = inputValue st
  ∧ tempTodo st' = tempTodo st
  ∧ lockInput st' = lockInput st
  ∧ deleteAll st' = deleteAll st.
Proof.
  intros Hout l.
  destruct (handleToggleAll_settled _ _ _ _ Hout) as (_ & _ & _ & _ & ->).
  fold l. simpl.
  destruct (withCompleted_fields (negb (allCompleted st)) l)
    as (Hid & Huser & Htitle & Hflag).
  split; [reflexivity|].
  split; [destruct (existsb _ sched); [exact Hid|reflexivity]|].
  split; [destruct (existsb _ sched); [exact Htitle|reflexivity]|].
  split; [destruct (existsb _ sched); [exact Huser|reflexivity]|].
  split; [destruct (existsb _ sched); [exact Hflag|reflexivity]|].
  split.
  - intros Hsome todo' Hin. rewrite Hsome in Hin.
    apply list_elem_of_In, in_map_iff in Hin as (todo & <- & _).
    reflexivity.
  - destruct (existsb (λ ev : nat * Settled unit, isRejected ev.2) sched);
      repeat split.
Qed.

(** X13 on the sample list of two active todos: the call of the second
    settles first and fails, that of the first succeeds, and both todos
    are completed. *)
Lemma handleToggleAll_all_or_nothing_witness :
  completed
    <$> [mkTodo 1 7 (Js.lit "buy milk") true;
         mkTodo 2 7 (Js.lit "buy bread") true]
  = (if existsb (λ ev : nat * Settled unit, isFulfilled ev.2)
          [(1%nat, Rejected Sample.networkError); (0%nat, Fulfilled ())]
     then (λ _, negb (allCompleted Sample.twoActive))
            <$> todosFromServer Sample.twoActive
     else completed <$> todosFromServer Sample.twoActive).
Proof.
  destruct (handleToggleAll_all_or_nothing Sample.twoActive
    (mkApp [mkTodo 1 7 (Js.lit "buy milk") true;
            mkTodo 2 7 (Js.lit "buy bread") true]
           Filter.All [] None false false None
           (Some (Js.lit "Unable to delete a todo")))
    [(1%nat, Rejected Sample.networkError); (0%nat, Fulfilled ())]
    [PatchTodo 1 (mkPartial (Some true) None);
     PatchTodo 2 (mkPartial (Some true) None)])
    as (_ & _ & _ & _ & Hflags & _).
  - reflexivity.
  - exact Hflags.
Defined.

Lemma forallb_withCompleted (b : bool) (l : list Todo) :
  forallb (λ todo, completed todo) (List.map (withCompleted b) l)
  = match l with [] => true | _ :: _ => b end.
Proof.
  destruct l as [|todo l]; [reflexivity|]. simpl.
  destruct b; simpl; [|reflexivity].
  induction l as [|todo' l IH]; simpl; [reflexivity|exact IH].
Qed.

Lemma withCompleted_over (b c : bool) (l : list Todo) :
  List.map (withCompleted b) (List.map (withCompleted c) l)
  = List.map (withCompleted b) l.
Proof. rewrite List.map_map. reflexivity. Qed.

(** X14. Toggle-all twice in a row, the second invoked on the state the
    first has left, all calls succeeding. After the first, on a list
    that is not empty, [allCompleted] is the opposite of what it was.
    After the second every todo has the flag [allCompleted] had at the
    start: a list that was all completed is back as it was, and a list
    that was mixed is all not-completed, which it was not. *)
Theorem handleToggleAll_twice (st st1 st2 : AppState)
    (sched1 sched2 : list (nat * Settled unit)) (reqs1 reqs2 : list Request) :
  Forall (λ ev, isFulfilled ev.2 = true) sched1 →
  Forall (λ ev, isFulfilled ev.2 = true) sched2 →
  handleToggleAll st sched1 = Some (st1, reqs1) →
  handleToggleAll st1 sched2 = Some (st2, reqs2) →
  let l := todosFromServer st in
  (l ≠ [] → allCompleted st1 = negb (allCompleted st))
  ∧ todosFromServer st2 = List.map (withCompleted (allCompleted st)) l
  ∧ (allCompleted st = true → todosFromServer st2 = l)
  ∧ (allCompleted st = false →
     ∀ todo, todo ∈ todosFromServer st2 → completed todo = false).
Proof.
  intros Hok1 Hok2 Hout1 Hout2 l.
  destruct (handleToggleAll_succeeded _ _ _ _ Hok1 Hout1) as [_ Hst1].
  destruct (handleToggleAll_succeeded _ _ _ _ Hok2 Hout2) as [_ Hst2].
  fold l in Hst1.
  assert (Hl1 : todosFromServer st1
                = List.map (withCompleted (negb (allCompleted st))) l)
    by (rewrite Hst1; reflexivity).
  assert (Hall1 : allCompleted st1
                  = match l with
                    | [] => true
                    | _ :: _ => negb (allCompleted st)
                    end).
  { rewrite allCompleted_forallb, Hl1. apply forallb_withCompleted. }
  assert (Hl2 : todosFromServer st2
                = List.map (withCompleted (allCompleted st)) l).
  { rewrite Hst2. simpl. rewrite Hl1, withCompleted_over, Hall1.
    destruct l as [|todo l']; [reflexivity|].
    rewrite negb_involutive. reflexivity. }
  split; [|split; [exact Hl2|split]].
  - intros Hne. rewrite Hall1. destruct l; [contradiction|reflexivity].
  - intros Hall. rewrite Hl2, Hall.
    rewrite <- (List.map_id l) at 2. apply List.map_ext_in.
    intros todo Hin.
    rewrite <- (proj1 (allCompleted_all st) Hall todo
                  (proj2 (list_elem_of_In _ _) Hin)).
    apply withCompleted_same.
  - intros Hall todo Hin. rewrite Hl2, Hall in Hin.
    apply list_elem_of_In, in_map_iff in Hin as (todo0 & <- & _).
    reflexivity.
Qed.

(** X14 on the mixed sample list. *)
Lemma handleToggleAll_twice_witness :
  todosFromServer
    (Sample.withTodos
       [withCompleted false Sample.milk; withCompleted false Sample.eggs;
        withCompleted false Sample.bread; withCompleted false Sample.tea])
  = List.map (withCompleted (allCompleted Sample.mixed))
             (todosFromServer Sample.mixed).
Proof.
  refine (proj1 (proj2 (handleToggleAll_twice Sample.mixed
    (Sample.withTodos
       [withCompleted true Sample.milk; Sample.eggs;
        withCompleted true Sample.bread; Sample.tea])
    _
    [(2%nat, Fulfilled ()); (0%nat, Fulfilled ())]
    [(0%nat, Fulfilled ()); (1%nat, Fulfilled ()); (2%nat, Fulfilled ());
     (3%nat, Fulfilled ())]
    [PatchTodo 1 (mkPartial (Some true) None);
     PatchTodo 2 (mkPartial (Some true) None)]
    [PatchTodo 1 (mkPartial (Some false) None);
     PatchTodo 3 (mkPartial (Some false) None);
     PatchTodo 2 (mkPartial (Some false) None);
     PatchTodo 4 (mkPartial (Some false) None)] _ _ _ _))).
  - repeat constructor.
  - repeat constructor.
  - reflexivity.
  - reflexivity.
Defined.

Lemma toggleAll_some_waits (st : AppState) :
  todosFromServer st ≠ [] →
  ∃ i, waits (toggleAllPlan (allCompleted st) (todosFromServer st)) i = true.
Proof.
  intros Hne. rewrite allCompleted_forallb.
  destruct (forallb (λ todo, completed todo) (todosFromServer st)) eqn:Hfa.
  - destruct (todosFromServer st) as [|todo l]; [contradiction|].
    exists O. reflexivity.
  - destruct (forallb_false_lookup _ _ Hfa) as (i & todo & Hl & Hc).
    exists i. apply waits_toggleAll. eauto.
Qed.

(** X15. Toggle-all makes as many update calls as the list is long when
    all todos are completed, and as many as the counter shows otherwise.
    On a list that is not empty, which is when its button is rendered,
    that is at least one call, and it cannot finish before a call has
    settled. On the empty list it makes no call and leaves the state as
    it was, the toggle marker off. *)
Theorem handleToggleAll_calls (st : AppState) :
  length (trace (handleToggleAll_begin st))
  = (if allCompleted st then length (todosFromServer st) else itemsLeft st)
  ∧ (listShown st = true →
     trace (handleToggleAll_begin st) ≠ []
     ∧ handleToggleAll st [] = None)
  ∧ (listShown st = false →
     handleToggleAll st []
     = Some (mkApp [] (filterStatus st) (inputValue st) (tempTodo st)
                   (lockInput st) (deleteAll st) None (errorMessage st),
             [])).
Proof.
  destruct (handleToggleAll_begin_follows st) as (_ & _ & _ & Htrace).
  split; [|split].
  - rewrite Htrace. unfold toggleAllRequests, itemsLeft, activeTodos.
    destruct (allCompleted st); apply length_map.
  - unfold listShown. intros Hshown.
    apply negb_true_iff, Nat.eqb_neq in Hshown.
    assert (Hne : todosFromServer st ≠ []).
    { intros Hnil. rewrite Hnil in Hshown. apply Hshown. reflexivity. }
    destruct (toggleAll_some_waits st Hne) as [i Hi]. split.
    + rewrite Htrace. apply waits_toggleAll in Hi as (todo & Hl & Hdir).
      unfold toggleAllRequests. intros Hnone.
      apply list_elem_of_lookup_2, list_elem_of_In in Hl.
      destruct (allCompleted st).
      * apply (in_map (λ todo, PatchTodo (id todo)
                                 (mkPartial (Some false) None))) in Hl.
        rewrite Hnone in Hl. destruct Hl.
      * destruct Hdir as [Hdir|Hdir]; [discriminate|].
        assert (Hin : In todo (List.filter (λ todo, negb (completed todo))
                                           (todosFromServer st))).
        { apply filter_In. rewrite Hdir. auto. }
        apply (in_map (λ todo, PatchTodo (id todo)
                                 (mkPartial (Some true) None))) in Hin.
        rewrite Hnone in Hin. destruct Hin.
    + destruct (handleToggleAll st []) as [[st' reqs]|] eqn:Hout;
        [|reflexivity].
      destruct (handleToggleAll_settled _ _ _ _ Hout) as (_ & _ & Hcov & _).
      apply Hcov in Hi. inversion Hi.
  - unfold listShown. intros Hshown.
    apply negb_false_iff, Nat.eqb_eq, nil_length_inv in Hshown.
    unfold handleToggleAll, handleToggleAll_begin. rewrite Hshown.
    reflexivity.
Qed.

(** X15 on the sample list of two active todos and on the initial
    state. *)
Lemma handleToggleAll_calls_witness :
  (trace (handleToggleAll_begin Sample.twoActive) ≠ []
   ∧ handleToggleAll Sample.twoActive [] = None)
  ∧ handleToggleAll initialState []
    = Some (mkApp [] Filter.All [] None false false None None, []).
Proof.
  split.
  - apply (proj1 (proj2 (handleToggleAll_calls Sample.twoActive))).
    reflexivity.
  - apply (proj2 (proj2 (handleToggleAll_calls initialState))).
    reflexivity.
Defined.

(** ** Loaders while a bulk operation is in flight *)

Lemma follows_isFinished {S R} (ks : list (Task S R)) (plan : Plan S R)
    (i : nat) (k : Task S R) :
  Forall2 follows ks plan → ks !! i = Some k →
  isFinished k = negb (waits plan i).
Proof.
  intros Hall Hk.
  destruct (Forall2_lookup_l _ _ _ _ _ Hall Hk) as (c & Hc & Hfol).
  unfold waits. rewrite Hc.
  destruct k, c; try contradiction; reflexivity.
Qed.

(** The toggle marker once the callbacks have started: the direction, if
    any call was made. *)
Lemma spawn_toggleAll_marker (b : bool) (l : list Todo) :
  ∀ fr,
  changeAll (app (spawn (toggleAllCallback b) l fr).1)
  = if existsb (λ todo, b || negb (completed todo)) l
    then Some (if b then ToggleStatus.completed else ToggleStatus.active)
    else changeAll (app fr).
Proof.
  induction l as [|todo l IH]; intros fr; [reflexivity|].
  simpl. unfold toggleAllCallback, toggleAllSecond.
  destruct b; simpl.
  - specialize (IH (onApp (setChangeAll (Some ToggleStatus.completed)) fr)).
    destruct (spawn _ l _) as [fr' ks]. simpl in *. rewrite IH.
    destruct (existsb _ l); reflexivity.
  - destruct (completed todo); simpl.
    + specialize (IH (toggleAllApply false true fr).1).
      unfold toggleAllApply in *. simpl in *.
      destruct (spawn _ l _) as [fr' ks]. simpl in *. exact IH.
    + specialize (IH (onApp (setChangeAll (Some ToggleStatus.active)) fr)).
      destruct (spawn _ l _) as [fr' ks]. simpl in *. rewrite IH.
      destruct (existsb _ l); reflexivity.
Qed.

(** The toggle marker and the other cells once toggle-all has issued
    its calls. *)
Lemma handleToggleAll_begin_marker (st : AppState) :
  changeAll (app (frame (handleToggleAll_begin st)))
  = (if existsb (λ todo, allCompleted st || negb (completed todo))
                (todosFromServer st)
     then Some (if allCompleted st then ToggleStatus.completed
                else ToggleStatus.active)
     else changeAll st)
  ∧ deleteAll (app (frame (handleToggleAll_begin st))) = deleteAll st
  ∧ todosFromServer (app (frame (handleToggleAll_begin st)))
    = todosFromServer st.
Proof.
  destruct (handleToggleAll_begin_follows st) as (_ & [c Hc] & _).
  split; [|rewrite Hc; split; reflexivity].
  unfold handleToggleAll_begin, startAll.
  pose proof (spawn_toggleAll_marker (allCompleted st) (todosFromServer st)
                (mkFrame st (todosFromServer st))) as Hm.
  destruct (spawn _ _ _) as [fr ks]. exact Hm.
Qed.

(** The loader of a todo of the list under the toggle marker that
    toggle-all sets. *)
Lemma loader_under_toggle_marker (st a : AppState)
    (it : TodoItem.ItemState) (i : nat) (todo : Todo) :
  TodoItem.isLoading it = false →
  todosFromServer st !! i = Some todo →
  deleteAll a = false →
  changeAll a
  = (if existsb (λ todo, allCompleted st || negb (completed todo))
                (todosFromServer st)
     then Some (if allCompleted st then ToggleStatus.completed
                else ToggleStatus.active)
     else None) →
  loaderActive todo (TodoItem.mkView it a)
  = allCompleted st || negb (completed todo).
Proof.
  intros Hload Hl Hdel Hmark.
  unfold loaderActive. simpl. rewrite Hload, Hdel, Hmark. simpl.
  assert (Hin : In todo (todosFromServer st)).
  { apply list_elem_of_In, (list_elem_of_lookup_2 _ i), Hl. }
  destruct (allCompleted st) eqn:Hall; simpl.
  - assert (Hex : existsb (λ _ : Todo, true) (todosFromServer st) = true).
    { apply existsb_exists. exists todo. auto. }
    rewrite Hex. simpl.
    rewrite (proj1 (allCompleted_all st) Hall todo
               (proj2 (list_elem_of_In _ _) Hin)).
    reflexivity.
  - destruct (completed todo) eqn:Hcomp; simpl.
    + destruct (existsb _ (todosFromServer st)); reflexivity.
    + assert (Hex : existsb (λ todo, negb (completed todo))
                            (todosFromServer st) = true).
      { apply existsb_exists. exists todo. rewrite Hcomp. auto. }
      rewrite Hex. reflexivity.
Qed.

(** X16. The loaders of a bulk operation, nothing else being in flight.
    The callback of a todo of the list issues a remote call exactly for
    the completed todos under clear-completed, and under toggle-all for
    every todo when all are completed and for the not-completed ones
    otherwise. From the moment the calls go out, after any number of
    settlements and until the operation completes, the loader of a todo
    is active exactly when a call was issued for it, whether that call
    has settled or not; the list that is rendered is the one the
    operation started from. Once the operation has completed, no loader
    is active. *)
Theorem bulk_loader_in_flight (st : AppState) (it : TodoItem.ItemState)
    (i : nat) (todo : Todo) :
  TodoItem.isLoading it = false →
  deleteAll st = false →
  changeAll st = None →
  todosFromServer st !! i = Some todo →
  (∃ k, tasks (handleDeleteAll_begin st) !! i = Some k
        ∧ negb (isFinished k) = completed todo)
  ∧ (∀ sched p,
       run sched (handleDeleteAll_begin st) = Some p →
       loaderActive todo (TodoItem.mkView it (app (frame p)))
       = completed todo
       ∧ todosFromServer (app (frame p)) = todosFromServer st)
  ∧ (∀ sched st' reqs todo',
       handleDeleteAll st sched = Some (st', reqs) →
       loaderActive todo' (TodoItem.mkView it st') = false)
  ∧ (∃ k, tasks (handleToggleAll_begin st) !! i = Some k
          ∧ negb (isFinished k) = allCompleted st || negb (completed todo))
  ∧ (∀ sched p,
       run sched (handleToggleAll_begin st) = Some p →
       loaderActive todo (TodoItem.mkView it (app (frame p)))
       = allCompleted st || negb (completed todo)
       ∧ todosFromServer (app (frame p)) = todosFromServer st)
  ∧ (∀ sched st' reqs todo',
       handleToggleAll st sched = Some (st', reqs) →
       loaderActive todo' (TodoItem.mkView it st') = false).
Proof.
  intros Hload Hdel Hchg Hl.
  destruct (handleDeleteAll_begin_follows st) as (Hfr & Hplan & _).
  destruct (handleToggleAll_begin_follows st) as (_ & _ & Hplan' & _).
  destruct (handleToggleAll_begin_marker st) as (Hmark & Hdel' & Htodos').
  rewrite Hchg in Hmark. rewrite Hdel in Hdel'.
  split; [|split; [|split; [|split; [|split]]]].
  - assert (Hlen : (i < length (tasks (handleDeleteAll_begin st)))%nat).
    { rewrite (Forall2_length _ _ _ Hplan). unfold deleteAllPlan.
      rewrite length_fmap. apply (lookup_lt_Some _ _ _ Hl). }
    destruct (lookup_lt_is_Some_2 _ _ Hlen) as [k Hk].
    exists k. split; [exact Hk|].
    rewrite (follows_isFinished _ _ _ _ Hplan Hk), negb_involutive.
    unfold waits, deleteAllPlan. rewrite list_lookup_fmap, Hl. simpl.
    destruct (completed todo); reflexivity.
  - intros sched p Hrun.
    destruct (run_follows _ _ _ _ Hplan Hrun) as (_ & Hw & Hframe & _ & _).
    rewrite Hfr, (deleteAll_fold _ _ _ Hw) in Hframe. rewrite Hframe.
    unfold loaderActive. simpl. rewrite Hload.
    destruct (existsb _ sched); simpl; rewrite Hchg; simpl;
      rewrite !orb_false_r; auto.
  - intros sched st' reqs todo' Hout.
    rewrite (handleDeleteAll_state _ _ _ _ Hout).
    unfold loaderActive. simpl. rewrite Hload, Hchg. reflexivity.
  - assert (Hlen : (i < length (tasks (handleToggleAll_begin st)))%nat).
    { rewrite (Forall2_length _ _ _ Hplan'). unfold toggleAllPlan.
      rewrite length_fmap. apply (lookup_lt_Some _ _ _ Hl). }
    destruct (lookup_lt_is_Some_2 _ _ Hlen) as [k Hk].
    exists k. split; [exact Hk|].
    rewrite (follows_isFinished _ _ _ _ Hplan' Hk), negb_involutive.
    unfold waits, toggleAllPlan. rewrite list_lookup_fmap, Hl. simpl.
    destruct (allCompleted st); [reflexivity|].
    destruct (completed todo); reflexivity.
  - intros sched p Hrun.
    destruct (run_follows _ _ _ _ Hplan' Hrun) as (_ & Hw & Hframe & _ & _).
    rewrite (toggleAll_fold _ _ _ _ Hw) in Hframe. rewrite Hframe. simpl.
    split.
    + apply (loader_under_toggle_marker st _ it i todo Hload Hl);
        destruct (existsb (λ ev : nat * Settled unit, isRejected ev.2) sched);
        simpl; assumption.
    + destruct (existsb (λ ev : nat * Settled unit, isRejected ev.2) sched);
        simpl; exact Htodos'.
  - intros sched st' reqs todo' Hout.
    destruct (handleToggleAll_settled _ _ _ _ Hout) as (_ & _ & _ & _ & ->).
    unfold loaderActive. simpl. rewrite Hload.
    destruct (existsb (λ ev : nat * Settled unit, isRejected ev.2) sched);
      simpl; rewrite Hdel; reflexivity.
Qed.

(** X16 on the mixed sample list: the loader of the second todo, which
    is completed, once its own remove call has settled and that of the
    fourth has not; and the loader of the first todo, which is active,
    once its own update call has settled and that of the third has
    not. *)
Lemma bulk_loader_in_flight_witness :
  let it := TodoItem.mkItem false false [] in
  (∀ p, run [(1%nat, Fulfilled ())] (handleDeleteAll_begin Sample.mixed)
        = Some p →
        loaderActive Sample.eggs (TodoItem.mkView it (app (frame p)))
        = completed Sample.eggs
        ∧ todosFromServer (app (frame p)) = todosFromServer Sample.mixed)
  ∧ (∀ p, run [(0%nat, Fulfilled ())] (handleToggleAll_begin Sample.mixed)
          = Some p →
          loaderActive Sample.milk (TodoItem.mkView it (app (frame p)))
          = allCompleted Sample.mixed || negb (completed Sample.milk)
          ∧ todosFromServer (app (frame p)) = todosFromServer Sample.mixed).
Proof.
  intros it. split.
  - destruct (bulk_loader_in_flight Sample.mixed it 1 Sample.eggs)
      as (_ & Hflight & _); try reflexivity.
    exact (Hflight [(1%nat, Fulfilled ())]).
  - destruct (bulk_loader_in_flight Sample.mixed it 0 Sample.milk)
      as (_ & _ & _ & _ & Hflight & _); try reflexivity.
    exact (Hflight [(0%nat, Fulfilled ())]).
Defined.

(** ** The handlers of an item *)

(** X17. The delete button of an item, which is rendered when the item
    is not in edit mode: the remove call of the item's id goes out with
    the item's loader on; once the call has settled, whichever way, the
    loader is off, nothing is thrown, the item is still out of edit
    mode, its field is as it was, and the state of [App] is the one
    delete-one leaves: the list less the id on success, the list as it
    was under the delete-failure message on failure. *)
Theorem deleteItem_settles (todo : Todo) (w : TodoItem.View) :
  TodoItem.isEditing (TodoItem.item w) = false →
  let start := TodoItem.deleteItem todo w in
  pending start.2 = Some (DeleteTodo (id todo))
  ∧ TodoItem.isLoading (TodoItem.item start.1) = true
  ∧ (∀ r,
       let after := settle r start in
       after.2 = Finished Normal
       ∧ TodoItem.isLoading (TodoItem.item after.1) = false
       ∧ TodoItem.isEditing (TodoItem.item after.1) = false
       ∧ TodoItem.inputValue (TodoItem.item after.1)
         = TodoItem.inputValue (TodoItem.item w)
       ∧ TodoItem.parent after.1
         = (settle r (handleDeleteTodo (id todo) (TodoItem.parent w))).1)
  ∧ todosFromServer (TodoItem.parent (settle (Fulfilled ()) start).1)
    = List.filter (λ todoItem, negb (id todoItem =? id todo))
                  (todosFromServer (TodoItem.parent w))
  ∧ (∀ e,
       todosFromServer (TodoItem.parent (settle (Rejected e) start).1)
       = todosFromServer (TodoItem.parent w)
       ∧ errorMessage (TodoItem.parent (settle (Rejected e) start).1)
         = Some (Js.lit "Unable to delete a todo")).
Proof.
  intros Hview start. subst start.
  split; [reflexivity|]. split; [reflexivity|]. split; [|split].
  - intros [[]|e]; simpl; rewrite Hview; repeat split.
  - reflexivity.
  - intros e. split; reflexivity.
Qed.

(** X17 on the first sample item, not in edit mode, its remove call
    succeeding. *)
Lemma deleteItem_settles_witness :
  let w :=
    TodoItem.mkView (TodoItem.mkItem false false (Js.lit "buy milk"))
                    Sample.twoActive in
  todosFromServer
    (TodoItem.parent
       (settle (Fulfilled ()) (TodoItem.deleteItem Sample.milk w)).1)
  = List.filter (λ todoItem, negb (id todoItem =? id Sample.milk))
                (todosFromServer (TodoItem.parent w)).
Proof.
  intros w.
  destruct (deleteItem_settles Sample.milk w) as (_ & _ & _ & Hgone & _).
  - reflexivity.
  - exact Hgone.
Defined.

(** X18. The checkbox of an item: an update call goes out for the
    item's id with the opposite of the flag the item was rendered with,
    the loader on. Once the call has settled the loader is off in every
    case. On success the entries of that id in the list get that flag
    and nothing is thrown. On a rejection with an [Error] the list is as
    it was, the update-failure message is shown and the error is thrown
    on; on any other rejection nothing at all has changed. *)
Theorem handleCompletedStatus_settles (todo : Todo) (w : TodoItem.View) :
  let start := TodoItem.handleCompletedStatus todo w in
  pending start.2
  = Some (PatchTodo (id todo)
            (mkPartial (Some (negb (completed todo))) None))
  ∧ TodoItem.isLoading (TodoItem.item start.1) = true
  ∧ TodoItem.parent start.1 = TodoItem.parent w
  ∧ (∀ r, TodoItem.isLoading (TodoItem.item (settle r start).1) = false)
  ∧ (let after := settle (Fulfilled ()) start in
     after.2 = Finished Normal
     ∧ TodoItem.parent after.1
       = setTodosFromServer
           (List.map (λ t,
                if id t =? id todo
                then withCompleted (negb (completed todo)) t else t)
              (todosFromServer (TodoItem.parent w)))
           (TodoItem.parent w))
  ∧ (∀ e,
       let after := settle (Rejected e) start in
       if instanceofError e then
         after.2 = Finished (Throw e)
         ∧ TodoItem.parent after.1
           = setErrorMessage (Some (Js.lit "Unable to update a todo"))
                             (TodoItem.parent w)
       else
         after.2 = Finished Normal
         ∧ TodoItem.parent after.1 = TodoItem.parent w).
Proof.
  intros start. subst start.
  split; [reflexivity|]. split; [reflexivity|]. split; [reflexivity|].
  split; [|split].
  - intros [[]|[m|d]]; reflexivity.
  - split; reflexivity.
  - intros [m|d]; split; reflexivity.
Qed.



(** ** Unique ids *)

Lemma filter_ids_unique (f : Todo → bool) (l : list Todo) :
  NoDup (id <$> l) → NoDup (id <$> List.filter f l).
Proof.
  intros Hnd. apply (sublist_NoDup _ _ Hnd), fmap_sublist, filter_sublist.
Qed.

(** X20. The handlers keep the ids of the list unique. On a list with
    unique ids, delete-one and update-one, however their call settles,
    and clear-completed and toggle-all, under every schedule, leave a
    list with unique ids; so does create when its call fails, and when it
    succeeds provided the store returns a todo whose id is not in the
    list. *)
Theorem ids_stay_unique (st : AppState) :
  NoDup (id <$> todosFromServer st) →
  (∀ tid r,
     NoDup (id <$> todosFromServer (settle r (handleDeleteTodo tid st)).1))
  ∧ (∀ tid data r,
       NoDup (id <$> todosFromServer
                       (settle r (handleChangeTodo tid data st)).1))
  ∧ (∀ sched st' reqs,
       handleDeleteAll st sched = Some (st', reqs) →
       NoDup (id <$> todosFromServer st'))
  ∧ (∀ sched st' reqs,
       handleToggleAll st sched = Some (st', reqs) →
       NoDup (id <$> todosFromServer st'))
  ∧ (∀ e,
       NoDup (id <$> todosFromServer
                       (settle (Rejected e) (handlePostTodo st)).1))
  ∧ (∀ newPost,
       id newPost ∉ id <$> todosFromServer st →
       NoDup (id <$> todosFromServer
                       (settle (Fulfilled newPost) (handlePostTodo st)).1)).
Proof.
  intros Hnd. split; [|split; [|split; [|split; [|split]]]].
  - intros tid [[]|e]; simpl; [|exact Hnd]. apply filter_ids_unique, Hnd.
  - intros tid data [[]|[m|d]]; simpl; try exact Hnd.
    rewrite merge_keeps_ids. exact Hnd.
  - intros sched st' reqs Hout.
    rewrite (handleDeleteAll_state _ _ _ _ Hout). simpl.
    apply filter_ids_unique, Hnd.
  - intros sched st' reqs Hout.
    destruct (handleToggleAll_settled _ _ _ _ Hout) as (_ & _ & _ & _ & ->).
    simpl. destruct (existsb _ sched); [|exact Hnd].
    change (List.map ?g ?k) with (g <$> k). rewrite <- list_fmap_compose.
    exact Hnd.
  - intros e. unfold handlePostTodo.
    destruct (Js.isEmpty _); simpl; exact Hnd.
  - intros newPost Hfresh. unfold handlePostTodo.
    destruct (Js.isEmpty _); simpl; [exact Hnd|].
    rewrite fmap_app. apply NoDup_app. split; [exact Hnd|]. split.
    + intros x Hx Hin. simpl in Hin. apply list_elem_of_singleton in Hin.
      subst x. contradiction.
    + simpl. apply NoDup_singleton.
Qed.

(** X20 on the mixed sample list, for a delete-one that succeeds. *)
Lemma ids_stay_unique_witness :
  NoDup (id <$> todosFromServer
                  (settle (Fulfilled ()) (handleDeleteTodo 3 Sample.mixed)).1).
Proof.
  refine (proj1 (ids_stay_unique Sample.mixed _) 3 (Fulfilled ())).
  compute_done.
Defined.
